(** * subcleaner: the [Subtitle] document model of [libs/subcleaner/subtitle.py]

    A shallow embedding of the class [Subtitle]: segmentation of a cue file
    into blocks, language determination and validation, the two mark sets and
    reindexing / rendering, followed by the properties of the specification
    that concern them. *)

From Stdlib Require Import ZArith NArith Ascii String PrimFloat Lia.
From stdpp Require Import base option list gmap pretty.

Set Warnings "-inexact-float,-clear-no-such-hyp".
Local Open Scope Z_scope.

(** ** Python values *)

(** A Python [str] is a sequence of Unicode code points. *)
Definition char := N.
Definition str := list char.

(** An ASCII literal of the source. *)
Definition lit (s : string) : str := N_of_ascii <$> list_ascii_of_string s.

Definition chr_newline : char := 10%N.
Definition chr_hyphen : char := 45%N.
Definition chr_dot : char := 46%N.
Definition chr_colon : char := 58%N.
Definition chr_underscore : char := 95%N.
Definition chr_em_dash : char := 8212%N.

Definition str_eqb (a b : str) : bool := bool_decide (a = b).

(** Truth value of a string, of an optional string and of an optional list:
    [None] and the empty value are false. *)
Definition truthy (s : str) : bool :=
  match s with [] => false | _ => true end.

Definition truthy_opt (o : option str) : bool :=
  match o with Some s => truthy s | None => false end.

Definition truthy_list {A} (o : option (list A)) : bool :=
  match o with Some (_ :: _) => true | _ => false end.

(** [s.startswith(p)] *)
Fixpoint startswith (p s : str) : bool :=
  match p, s with
  | [], _ => true
  | _ :: _, [] => false
  | a :: p', b :: s' => N.eqb a b && startswith p' s'
  end.

(** [sub in s] *)
Fixpoint contains (sub s : str) : bool :=
  startswith sub s ||
  match s with
  | [] => false
  | _ :: s' => contains sub s'
  end.

(** [s.endswith(c)] for a one-character [c]. *)
Definition endswith_char (c : char) (s : str) : bool :=
  match last s with Some x => N.eqb x c | None => false end.

(** [s.lstrip(c)] for a one-character [c]. *)
Fixpoint lstrip_char (c : char) (s : str) : str :=
  match s with
  | x :: s' => if N.eqb x c then lstrip_char c s' else s
  | [] => []
  end.

(** [s.split(c)] for a one-character separator: never the empty list. *)
Fixpoint split (c : char) (s : str) : list str :=
  match s with
  | [] => [[]]
  | x :: s' =>
      if N.eqb x c then [] :: split c s'
      else match split c s' with
           | w :: ws => (x :: w) :: ws
           | [] => [[x]]
           end
  end.

(** [sep.join(parts)] *)
Fixpoint join (sep : str) (parts : list str) : str :=
  match parts with
  | [] => []
  | [p] => p
  | p :: ps => p ++ sep ++ join sep ps
  end.

(** [s.replace(c, r)] for a one-character [c]. *)
Definition replace (c : char) (r : str) (s : str) : str :=
  s ≫= (λ x, if N.eqb x c then r else [x]).

(** [str(n)] for an integer. *)
Definition str_of_int (n : Z) : str :=
  N_of_ascii <$> list_ascii_of_string (pretty n).

(** Index normalisation of a slice bound: negative bounds count from the
    end, and the result is clamped to [0, n]. *)
Definition slice_bound (n k : Z) : Z :=
  Z.max 0 (Z.min n (if k <? 0 then k + n else k)).

(** [l[lo:hi]] *)
Definition py_slice {A} (l : list A) (lo hi : Z) : list A :=
  let n := Z.of_nat (length l) in
  let a := slice_bound n lo in
  let b := slice_bound n hi in
  take (Z.to_nat (b - a)) (drop (Z.to_nat a) l).

(** [l[k]]: [None] stands for [IndexError]. *)
Definition py_index {A} (l : list A) (k : Z) : option A :=
  let n := Z.of_nat (length l) in
  let k' := if k <? 0 then k + n else k in
  if (0 <=? k') && (k' <? n) then l !! Z.to_nat k' else None.

(** [range(a, b)] *)
Definition range (a b : Z) : list Z :=
  (λ i, a + Z.of_nat i) <$> seq 0 (Z.to_nat (b - a)).

Definition len {A} (l : list A) : Z := Z.of_nat (length l).

(** ** pathlib *)

(** A pure path: its anchor (root or drive, empty for a relative path) and
    its components. *)
Record Path := mkPath { anchor : str; names : list str }.

#[global] Instance Path_eq_dec : EqDecision Path.
Proof. solve_decision. Defined.

(** [path.name]: the final component, or the empty string. *)
Definition name (p : Path) : str := default [] (last (names p)).

(** [path.suffixes], as pathlib computes it from the name. *)
Definition suffixes (p : Path) : list str :=
  let n := name p in
  if endswith_char chr_dot n then []
  else (λ suffix, chr_dot :: suffix) <$> drop 1 (split chr_dot (lstrip_char chr_dot n)).

(** [path.relative_to(base)]: [None] stands for [ValueError]. *)
Definition relative_to (p base : Path) : option Path :=
  if bool_decide (anchor p = anchor base)
     && bool_decide (take (length (names base)) (names p) = names base)
  then Some (mkPath [] (drop (length (names base)) (names p)))
  else None.

(** ** Exceptions and collaborators *)

Inductive Exn :=
| ParsingException (detail : str) (subtitle_file : option Path)
| SubtitleContentException (subtitle_file : Path)
| KeyError
| IndexError
| UnicodeDecodeError
| OSError
| LangDetectException
| DanglingReference.

Inductive result (A : Type) :=
| Ok (a : A)
| Raise (e : Exn).
Arguments Ok {A} a.
Arguments Raise {A} e.

(** The attributes of a [SubBlock] that [Subtitle] reads or writes; [other]
    holds whatever else the block class keeps (its time range and so on). *)
Record SubBlock (P : Type) := mkSubBlock {
  content : str;
  current_index : Z;
  regex_matches : Z;
  other : P
}.
Arguments mkSubBlock {P} _ _ _ _.
Arguments content {P} _.
Arguments current_index {P} _.
Arguments regex_matches {P} _.
Arguments other {P} _.

Definition set_current_index {P} (i : Z) (b : SubBlock P) : SubBlock P :=
  mkSubBlock (content b) i (regex_matches b) (other b).

Definition set_regex_matches {P} (m : Z) (b : SubBlock P) : SubBlock P :=
  mkSubBlock (content b) (current_index b) m (other b).

(** A guess of [langdetect.detect_langs]. *)
Record Language := mkLanguage { lang : str; prob : float }.

Inductive Encoding := utf_8 | cp1252.

(** What opening and reading a file in text mode comes to. *)
Inductive ReadResult :=
| ReadOk (file_content : str)
| ReadDecodeError
| ReadOSError.

(** What [subtitle.py] imports and does not define: the block class of
    [sub_block], the registry [languages], the detector [langdetect], the
    file system, and the interpreter's character tables behind
    [str.isnumeric] and the regular expression class [\s]. Each collaborator
    fails with its own exception only: the block constructor with a
    [ParsingException] and its detail ([inl]), the detector with a
    [LangDetectException] ([None]). *)
Class Env := {
  Payload : Type;
  SubBlock_init : str → str + SubBlock Payload;
  SubBlock_str : SubBlock Payload → str;
  is_language : str → bool;
  get_2letter_code : str → option str;
  detect_langs : str → option (list Language);
  open_read : Path → Encoding → ReadResult;
  uc_numeric : char → bool;
  uc_space : char → bool
}.

(** The globals [args] and [config] of [settings]. *)
Class Settings := {
  args_language : option str;
  args_destroy_list : option (list Z);
  config_default_language : option str;
  config_relative_base : Path
}.

(** [s.isnumeric()] *)
Definition isnumeric {E : Env} (s : str) : bool :=
  truthy s && forallb uc_numeric s.

(** [re.sub(r'\n\s*\n', '\n', s)]: every run of white space that starts at a
    newline and holds a further newline is cut back, up to its last newline,
    to one newline. [pending] is the white space read since the newline that
    may still be the end of such a run. *)
Fixpoint collapse {E : Env} (pending : option str) (s : str) : str :=
  match s with
  | [] =>
      match pending with
      | Some ws => chr_newline :: ws
      | None => []
      end
  | c :: s' =>
      match pending with
      | None =>
          if N.eqb c chr_newline then collapse (Some []) s'
          else c :: collapse None s'
      | Some ws =>
          if N.eqb c chr_newline then collapse (Some []) s'
          else if uc_space c then collapse (Some (ws ++ [c])) s'
          else chr_newline :: ws ++ c :: collapse None s'
      end
  end.

Definition re_sub_blank_lines {E : Env} (s : str) : str := collapse None s.

(** ** The document, the store of blocks and the monad of methods *)

Definition loc := nat.

Record Subtitle := mkSubtitle {
  file : Path;
  blocks : list loc;
  ad_blocks : gset loc;
  warning_blocks : gset loc;
  language : str;
  short_path : Path
}.

Definition with_blocks (bs : list loc) (s : Subtitle) : Subtitle :=
  mkSubtitle (file s) bs (ad_blocks s) (warning_blocks s) (language s) (short_path s).
Definition with_ad_blocks (a : gset loc) (s : Subtitle) : Subtitle :=
  mkSubtitle (file s) (blocks s) a (warning_blocks s) (language s) (short_path s).
Definition with_warning_blocks (a : gset loc) (s : Subtitle) : Subtitle :=
  mkSubtitle (file s) (blocks s) (ad_blocks s) a (language s) (short_path s).
Definition with_language (l : str) (s : Subtitle) : Subtitle :=
  mkSubtitle (file s) (blocks s) (ad_blocks s) (warning_blocks s) l (short_path s).
Definition with_short_path (p : Path) (s : Subtitle) : Subtitle :=
  mkSubtitle (file s) (blocks s) (ad_blocks s) (warning_blocks s) (language s) p.

(** Calls that leave the module, in the order they happen. *)
Inductive Event :=
| EvIsLanguage (tag : str)
| EvGet2LetterCode (tag : str)
| EvDetectLangs (text : str)
| EvLogWarning (msg : str).

(** The block objects live in a store and are referred to by location, so
    that the list [blocks] and the two sets share them; membership in the
    sets goes by the identity of the object, the block class being taken
    not to redefine equality. [self] is the document the methods run on. *)
Record World {E : Env} := mkWorld {
  heap : gmap loc (SubBlock Payload);
  next_loc : loc;
  self : Subtitle;
  trace : list Event
}.

Definition with_heap {E : Env} (h : gmap loc (SubBlock Payload)) (w : World) : World :=
  mkWorld _ h (next_loc w) (self w) (trace w).
Definition with_self {E : Env} (s : Subtitle) (w : World) : World :=
  mkWorld _ (heap w) (next_loc w) s (trace w).

(** State and exceptions: a raised exception keeps the state reached. *)
Definition M {E : Env} (A : Type) : Type := World → result A * World.

Definition M_ret {E : Env} {A} (a : A) : M A := λ w, (Ok a, w).

Definition M_bind {E : Env} {A B} (f : A → M B) (m : M A) : M B :=
  λ w, match m w with
       | (Ok a, w') => f a w'
       | (Raise e, w') => (Raise e, w')
       end.

#[global] Instance M_mret {E : Env} : MRet M := @M_ret _.
#[global] Instance M_mbind {E : Env} : MBind M := @M_bind _.

Definition raise {E : Env} {A} (e : Exn) : M A := λ w, (Raise e, w).

(** [try: m except <e>: handler e] *)
Definition try_except {E : Env} {A} (m : M A) (handler : Exn → M A) : M A :=
  λ w, match m w with
       | (Ok a, w') => (Ok a, w')
       | (Raise e, w') => handler e w'
       end.

Definition get_self {E : Env} : M Subtitle := λ w, (Ok (self w), w).
Definition modify_self {E : Env} (f : Subtitle → Subtitle) : M unit :=
  λ w, (Ok tt, with_self (f (self w)) w).
Definition emit {E : Env} (e : Event) : M unit :=
  λ w, (Ok tt, mkWorld _ (heap w) (next_loc w) (self w) (trace w ++ [e])).

(** Creation of an object, attribute read and attribute write. *)
Definition alloc {E : Env} (b : SubBlock Payload) : M loc :=
  λ w, (Ok (next_loc w),
        mkWorld _ (<[next_loc w := b]> (heap w)) (S (next_loc w)) (self w) (trace w)).
Definition load {E : Env} (l : loc) : M (SubBlock Payload) :=
  λ w, match heap w !! l with
       | Some b => (Ok b, w)
       | None => (Raise DanglingReference, w)
       end.
Definition store {E : Env} (l : loc) (b : SubBlock Payload) : M unit :=
  λ w, (Ok tt, with_heap (<[l := b]> (heap w)) w).

(** [l[k]] as a statement. *)
Definition getitem {E : Env} {A} (l : list A) (k : Z) : M A :=
  match py_index l k with
  | Some x => mret x
  | None => raise IndexError
  end.

(** [for x in xs: acc = body acc x] *)
Fixpoint for_each {E : Env} {A B} (body : B → A → M B) (xs : list A) (acc : B) : M B :=
  match xs with
  | [] => mret acc
  | x :: xs' => acc' ← body acc x; for_each body xs' acc'
  end.

Definition call_is_language {E : Env} (tag : str) : M bool :=
  emit (EvIsLanguage tag);; mret (is_language tag).
Definition call_get_2letter_code {E : Env} (tag : str) : M (option str) :=
  emit (EvGet2LetterCode tag);; mret (get_2letter_code tag).
Definition call_detect_langs {E : Env} (text : str) : M (list Language) :=
  emit (EvDetectLangs text);;
  match detect_langs text with
  | Some guesses => mret guesses
  | None => raise LangDetectException
  end.

(** [with file.open("r", encoding=...) as f: f.read()] *)
Definition open_and_read {E : Env} (file : Path) (encoding : Encoding) : M str :=
  match open_read file encoding with
  | ReadOk file_content => mret file_content
  | ReadDecodeError => raise UnicodeDecodeError
  | ReadOSError => raise OSError
  end.

(** ** The methods of [Subtitle] *)

Definition arrow : str := lit "-->".
Definition und : str := lit "und".

Section Methods.
Context {E : Env} {S : Settings}.

(** [SubBlock(text)]: the constructor's result becomes a new object. *)
Definition new_SubBlock (text : str) : M loc :=
  match SubBlock_init text with
  | inr b => alloc b
  | inl detail => raise (ParsingException detail None)
  end.

Definition warn (block : loc) : M unit :=
  s ← get_self;
  if bool_decide (block ∉ ad_blocks s)
  then modify_self (with_warning_blocks ({[block]} ∪ warning_blocks s))
  else mret tt.

(** [self.warning_blocks.remove(block)] *)
Definition warning_blocks_remove (block : loc) : M unit :=
  s ← get_self;
  if bool_decide (block ∈ warning_blocks s)
  then modify_self (with_warning_blocks (warning_blocks s ∖ {[block]}))
  else raise KeyError.

Definition ad (block : loc) : M unit :=
  try_except (warning_blocks_remove block)
    (λ e, match e with KeyError => mret tt | _ => raise e end);;
  s ← get_self;
  modify_self (with_ad_blocks ({[block]} ∪ ad_blocks s)).

(** The body of the loop of [_breakup_block]; the local [last_break] is the
    accumulator. *)
Definition breakup_step (raw_blocks : list str) (last_break i : Z) : M Z :=
  line ← getitem raw_blocks i;
  boundary ← (if contains arrow line
              then prev ← getitem raw_blocks (i - 1); mret (isnumeric prev)
              else mret false);
  if boundary : bool then
    block ← new_SubBlock (join [chr_newline] (py_slice raw_blocks last_break (i - 1)));
    b ← load block;
    (if truthy (content b)
     then modify_self (λ s, with_blocks (blocks s ++ [block]) s)
     else mret tt);;
    mret (i - 1)
  else mret last_break.

Definition _breakup_block (raw_blocks : list str) : M unit :=
  for_each (breakup_step raw_blocks) (range 2 (len raw_blocks)) 0;; mret tt.

Definition _parse_file_content (file_content : str) : M unit :=
  let file_content := re_sub_blank_lines file_content in
  let file_content := replace chr_em_dash (lit "--") file_content in
  _breakup_block (split chr_newline file_content).

Fixpoint mark_blocks_for_deletion (purge_list : list Z) : M unit :=
  match purge_list with
  | [] => mret tt
  | index :: rest =>
      s ← get_self;
      (if len (blocks s) <=? index - 1 then mret tt
       else block ← getitem (blocks s) (index - 1);
            b ← load block;
            store block (set_regex_matches 3 b));;
      mark_blocks_for_deletion rest
  end.

(** [sub_content = ""; for block in self.blocks: sub_content += block.content] *)
Definition sub_content_of_blocks : M str :=
  s ← get_self;
  for_each (λ acc block, b ← load block; mret (acc ++ content b)) (blocks s) [].

Definition language_is_correct : M bool :=
  s ← get_self;
  if str_eqb (language s) und then mret true else
  language_code_2 ← call_get_2letter_code (language s);
  if negb (truthy_opt language_code_2) then mret true else
  sub_content ← sub_content_of_blocks;
  if len sub_content <? 500 then mret true else
  guesses ← call_detect_langs sub_content;
  detected_language ← getitem guesses 0;
  mret (bool_decide (Some (lang detected_language) = language_code_2)
        && (0.8 <? prob detected_language)%float).

(** [suffix.replace(":", "-").replace("_", "-").split("-")[0][1:]] *)
Definition parsed_lang_of (suffix : str) : str :=
  drop 1 (default []
    (head (split chr_hyphen
       (replace chr_underscore [chr_hyphen]
          (replace chr_colon [chr_hyphen] suffix))))).

(** The loop over the suffixes; the result tells whether the method
    returned from inside the loop. *)
Fixpoint determine_from_suffixes (sufs : list str) : M bool :=
  match sufs with
  | [] => mret false
  | suffix :: rest =>
      let parsed_lang := parsed_lang_of suffix in
      known ← call_is_language parsed_lang;
      if known : bool
      then modify_self (with_language parsed_lang);; mret true
      else determine_from_suffixes rest
  end.

Definition determine_language : M unit :=
  if truthy_opt config_default_language
  then modify_self (with_language (default [] config_default_language))
  else
    modify_self (with_language und);;
    s ← get_self;
    returned ← determine_from_suffixes (py_slice (suffixes (file s)) (-3) (-1));
    if returned : bool then mret tt else
    sub_content ← sub_content_of_blocks;
    if len sub_content <? 500 then mret tt else
    guesses ← call_detect_langs sub_content;
    detected_language ← getitem guesses 0;
    if (0.9 <? prob detected_language)%float
    then modify_self (with_language (lang detected_language))
    else mret tt.

Definition to_content : M str :=
  s ← get_self;
  content ← for_each
    (λ acc block,
       b ← load block;
       mret (acc ++ str_of_int (current_index b) ++ [chr_newline]
                 ++ SubBlock_str b ++ [chr_newline]
                 ++ [chr_newline]))
    (blocks s) [];
  mret (py_slice content 0 (-1)).

Definition reindex : M unit :=
  s ← get_self;
  for_each
    (λ index block,
       b ← load block;
       store block (set_current_index index b);;
       mret (index + 1))
    (blocks s) 1;;
  mret tt.

Definition __len__ : M Z :=
  s ← get_self; mret (len (blocks s)).

Fixpoint any_content (bs : list loc) : M bool :=
  match bs with
  | [] => mret false
  | block :: rest =>
      b ← load block;
      if truthy (content b) then mret true else any_content rest
  end.

Definition __bool__ : M bool :=
  s ← get_self; any_content (blocks s).

Definition read_file (file : Path) : M str :=
  try_except (open_and_read file utf_8)
    (λ e, match e with
          | UnicodeDecodeError => open_and_read file cp1252
          | _ => raise e
          end).

Definition mismatch_message (l : str) : str :=
  lit "the language within the file does not match the file label: '"
  ++ l ++ lit "'".

(** The attributes [language] and [short_path], which do not exist before
    their assignment, hold the empty string and the file until then;
    nothing reads them earlier. *)
Definition __init__ (subtitle_file : Path) : M unit :=
  modify_self (λ _, mkSubtitle subtitle_file [] ∅ ∅ [] subtitle_file);;
  file_content ← read_file subtitle_file;
  try_except (_parse_file_content file_content)
    (λ e, match e with
          | ParsingException d _ => raise (ParsingException d (Some subtitle_file))
          | _ => raise e
          end);;
  modify_self (with_short_path
    (default subtitle_file (relative_to subtitle_file config_relative_base)));;
  nonempty ← __bool__;
  if negb nonempty then raise (SubtitleContentException subtitle_file) else
  (if truthy_opt args_language
   then modify_self (with_language (default [] args_language))
   else determine_language);;
  correct ← language_is_correct;
  (if negb correct
   then s ← get_self; emit (EvLogWarning (mismatch_message (language s)))
   else mret tt);;
  if truthy_list args_destroy_list
  then mark_blocks_for_deletion (default [] args_destroy_list)
  else mret tt.

End Methods.

(** ** Cue files, construction and use of a document *)

(** A cue of the input format: a sequence-number line, a time-range line
    and the text lines. *)
Record Cue := mkCue { number : str; timing : str; text : list str }.

Definition cue_lines (c : Cue) : list str := number c :: timing c :: text c.

Section Documents.
Context {E : Env} {S : Settings}.

(** No line of [ls] but the first is a boundary of the scan: none holds the
    arrow right after a numeric line. *)
Fixpoint no_inner_boundary (ls : list str) : bool :=
  match ls with
  | a :: ((b :: _) as tl) =>
      negb (contains arrow b && isnumeric a) && no_inner_boundary tl
  | _ => true
  end.

(** A well-formed cue: numeric sequence number, a time-range line with the
    arrow, and text in which no new cue starts. *)
Definition wf_cue (c : Cue) : bool :=
  isnumeric (number c) && contains arrow (timing c) && no_inner_boundary (text c).

(** The block class accepts the cue and finds text in it. *)
Definition cue_accepted (c : Cue) : bool :=
  match SubBlock_init (join [chr_newline] (cue_lines c)) with
  | inr b => truthy (content b)
  | inl _ => false
  end.

(** The block the class builds from a cue (for an accepted cue). *)
Definition block_of_cue (c : Cue) : option (SubBlock Payload) :=
  match SubBlock_init (join [chr_newline] (cue_lines c)) with
  | inr b => Some b
  | inl _ => None
  end.

(** The blocks of a document, read through the store. *)
Definition block_objects (w : World) : list (option (SubBlock Payload)) :=
  (λ l, heap w !! l) <$> blocks (self w).

(** The state before any document exists. *)
Definition boot : World :=
  mkWorld _ ∅ 0%nat (mkSubtitle (mkPath [] []) [] ∅ ∅ [] (mkPath [] [])) [].

(** What a client does with a constructed document. *)
Inductive Call :=
| CallWarn (block : loc)
| CallAd (block : loc)
| CallMarkForDeletion (purge_list : list Z)
| CallReindex
| CallRender.

Definition run_call (c : Call) : M unit :=
  match c with
  | CallWarn b => warn b
  | CallAd b => ad b
  | CallMarkForDeletion ps => mark_blocks_for_deletion ps
  | CallReindex => reindex
  | CallRender => to_content;; mret tt
  end.

(** The states of a document: constructed by [__init__], then used through
    the calls above (a call that raises leaves the state it reached). *)
Inductive reachable : World → Prop :=
| reachable_init subtitle_file w0 w :
    __init__ subtitle_file w0 = (Ok tt, w) → reachable w
| reachable_call c w r w' :
    reachable w → run_call c w = (r, w') → reachable w'.

(** Every block of the sequence is a distinct live object. *)
Definition blocks_ok (w : World) : Prop :=
  NoDup (blocks (self w)) ∧ ∀ l, l ∈ blocks (self w) → is_Some (heap w !! l).

(** The token of a suffix in the words of the specification: strip the
    leading separator, turn [:] and [_] into [-], keep what comes before
    the first hyphen. *)
Definition suffix_token_spec (suffix : str) : str :=
  default []
    (head (split chr_hyphen
       (replace chr_underscore [chr_hyphen]
          (replace chr_colon [chr_hyphen] (drop 1 suffix))))).

(** The suffix components the specification names: up to two, before the
    final one. *)
Definition candidate_suffixes (p : Path) : list str :=
  let sufs := suffixes p in
  drop (length sufs - 3) (take (length sufs - 1) sufs).

End Documents.

(** ** Notions used in the statements and proofs *)

Section Notions.
Context {E : Env} {S : Settings}.

(** [preserves P m]: whatever [m] returns or raises, it keeps [P]. *)
Definition preserves {A} (P : World → Prop) (m : M A) : Prop :=
  ∀ w r w', m w = (r, w') → P w → P w'.

(** [P] cannot tell apart two states related by [R]. *)
Definition closed_under (R : World → World → Prop) (P : World → Prop) : Prop :=
  ∀ w w', R w w' → P w → P w'.

(** The two mark sets are the same. *)
Definition same_marks (w w' : World) : Prop :=
  ad_blocks (self w') = ad_blocks (self w) ∧
  warning_blocks (self w') = warning_blocks (self w).

(** The document object is the same (its blocks may have been written to). *)
Definition same_self (w w' : World) : Prop := self w' = self w.

(** The block sequence is the same and no object has disappeared. *)
Definition same_blocks (w w' : World) : Prop :=
  blocks (self w') = blocks (self w) ∧
  (next_loc w ≤ next_loc w')%nat ∧
  ∀ l, is_Some (heap w !! l) → is_Some (heap w' !! l).

(** No block is in both mark sets. *)
Definition marks_disjoint (w : World) : Prop :=
  ad_blocks (self w) ## warning_blocks (self w).

(** The state after a block built from [b] has been created and, when its
    content is not empty, appended. *)
Definition emitted (b : SubBlock Payload) (w : World) : World :=
  mkWorld _ (<[next_loc w := b]> (heap w)) (Datatypes.S (next_loc w))
    (if truthy (content b)
     then with_blocks (blocks (self w) ++ [next_loc w]) (self w)
     else self w)
    (trace w).

(** The blocks of the sequence are distinct objects created so far. *)
Definition blocks_fresh (w : World) : Prop :=
  NoDup (blocks (self w)) ∧
  ∀ l, l ∈ blocks (self w) → (l < next_loc w)%nat ∧ is_Some (heap w !! l).

(** The body of the loop of [reindex]. *)
Definition reindex_body (index : Z) (block : loc) : M Z :=
  b ← load block; store block (set_current_index index b);; mret (index + 1).

(** The state after one more call out of the module. *)
Definition logged (e : Event) (w : World) : World :=
  mkWorld _ (heap w) (next_loc w) (self w) (trace w ++ [e]).

(** The concatenated content of the blocks. *)
Definition doc_content (w : World) : str :=
  concat ((λ l, match heap w !! l with Some b => content b | None => [] end)
            <$> blocks (self w)).

(** The verdict on the detector's answer. *)
Definition verdict (code : option str) (guesses : option (list Language))
  : result bool :=
  match guesses with
  | Some (top :: _) =>
      Ok (bool_decide (Some (lang top) = code) && (0.8 <? prob top)%float)
  | Some [] => Raise IndexError
  | None => Raise LangDetectException
  end.

(** The document at the start of [__init__]: no block, no mark. *)
Definition blank (subtitle_file : Path) (w : World) : World :=
  with_self (mkSubtitle subtitle_file [] ∅ ∅ [] subtitle_file) w.

(** The rest of [__init__] once the content has been found not empty. *)
Definition init_tail : M unit :=
  (if truthy_opt args_language
   then modify_self (with_language (default [] args_language))
   else determine_language);;
  correct ← language_is_correct;
  (if negb correct
   then s ← get_self; emit (EvLogWarning (mismatch_message (language s)))
   else mret tt);;
  if truthy_list args_destroy_list
  then mark_blocks_for_deletion (default [] args_destroy_list)
  else mret tt.

(** Some block of the sequence has content. *)
Definition has_content (w : World) : bool :=
  existsb (λ l, match heap w !! l with
                | Some b => truthy (content b)
                | None => false
                end) (blocks (self w)).

(** The state after [short_path] has been assigned. *)
Definition set_short_path (subtitle_file : Path) (w : World) : World :=
  with_self
    (with_short_path
       (default subtitle_file (relative_to subtitle_file config_relative_base))
       (self w)) w.

(** [raises_only Q m]: every exception [m] raises satisfies [Q]. *)
Definition raises_only {A} (Q : Exn → Prop) (m : M A) : Prop :=
  ∀ w e w', m w = (Raise e, w') → Q e.

(** The tokens put to the registry: up to and with the first it knows. *)
Fixpoint probed (tokens : list str) : list str :=
  match tokens with
  | [] => []
  | t :: rest => if is_language t then [t] else t :: probed rest
  end.

(** The document and the trace are the same. *)
Definition same_self_trace (w w' : World) : Prop :=
  self w' = self w ∧ trace w' = trace w.

(** The trace is the same. *)
Definition same_trace (w w' : World) : Prop := trace w' = trace w.

(** The calls out of the module that validation of the tag [l] makes. *)
Definition validation_events (l : str) (sub_content : str) : list Event :=
  if bool_decide (l = und) then [] else
  EvGet2LetterCode l ::
  if negb (truthy_opt (get_2letter_code l)) then [] else
  if len sub_content <? 500 then [] else
  [EvDetectLangs sub_content].

(** Line [i] of [raw] is a boundary of the scan. *)
Definition boundary (raw : list str) (i : nat) : bool :=
  match raw !! i, raw !! (i - 1)%nat with
  | Some line, Some prev => contains arrow line && isnumeric prev
  | _, _ => false
  end.

(** The indices [a], ..., [a + n - 1]. *)
Definition indices (a n : nat) : list Z := (λ i, Z.of_nat (a + i)) <$> seq 0 n.

(** No line of [ls] holds the arrow. *)
Definition arrow_free (ls : list str) : bool :=
  forallb (λ l, negb (contains arrow l)) ls.

(** The state after the blocks [bs] have been created one after the other. *)
Fixpoint emit_all (bs : list (SubBlock Payload)) (w : World) : World :=
  match bs with
  | [] => w
  | b :: rest => emit_all rest (emitted b w)
  end.

(** The constructor's result on a cue. *)
Definition built (c : Cue) (b : SubBlock Payload) : Prop :=
  SubBlock_init (join [chr_newline] (cue_lines c)) = inr b.

End Notions.

(** ** A sample environment *)

Definition sample_numeric (c : char) : bool := (48 <=? c)%N && (c <=? 57)%N.
Definition sample_space (c : char) : bool :=
  (9 <=? c)%N && (c <=? 13)%N || N.eqb c 32%N.

(** A small block parser: sequence number, time range, then the text. *)
Definition sample_SubBlock_init (text : str) : str + SubBlock unit :=
  match split chr_newline text with
  | _ :: t :: rest =>
      if contains arrow t
      then inr (mkSubBlock (join [chr_newline] rest) 0 0 tt)
      else inl (lit "no time range")
  | _ => inl (lit "too short")
  end.

Definition sample_cue (n : str) (t : str) : Cue :=
  mkCue n (lit "00:00:01,000 --> 00:00:02,000") [t].

Definition sample_cues : list Cue :=
  [sample_cue (lit "1") (lit "Hello world");
   sample_cue (lit "2") (lit "Goodbye");
   sample_cue (lit "3") (lit "See you");
   sample_cue (lit "4") (lit "The end")].

Definition sample_lines : list str :=
  concat (cue_lines <$> sample_cues) ++ [[]].

Definition sample_text : str := join [chr_newline] sample_lines.

Definition sample_file : Path :=
  mkPath (lit "/") [lit "media"; lit "movie.en.srt"].

Definition short_file : Path :=
  mkPath (lit "/") [lit "media"; lit "short.srt"].

Definition long_file : Path :=
  mkPath (lit "/") [lit "media"; lit "long.srt"].

(** Two cues, the first with 600 characters of text. *)
Definition long_text : str :=
  join [chr_newline]
    (cue_lines (sample_cue (lit "1") (repeat 97%N 600))
     ++ cue_lines (sample_cue (lit "2") (lit "Goodbye")) ++ [[]]).

Definition sample_open_read (p : Path) (e : Encoding) : ReadResult :=
  if bool_decide (p = sample_file) then ReadOk sample_text
  else if bool_decide (p = short_file) then ReadOk (lit "Hello world")
  else if bool_decide (p = long_file) then ReadOk long_text
  else ReadOSError.

Definition sample_is_language (tag : str) : bool :=
  bool_decide (tag ∈ [lit "en"; lit "sv"]).

Definition sample_env : Env := {|
  Payload := unit;
  SubBlock_init := sample_SubBlock_init;
  SubBlock_str := content;
  is_language := sample_is_language;
  get_2letter_code := λ tag, if sample_is_language tag then Some tag else None;
  detect_langs := λ _, Some [mkLanguage (lit "en") 0.99%float];
  open_read := sample_open_read;
  uc_numeric := sample_numeric;
  uc_space := sample_space
|}.

Definition sample_settings (override default_language : option str)
    (destroy_list : option (list Z)) : Settings := {|
  args_language := override;
  args_destroy_list := destroy_list;
  config_default_language := default_language;
  config_relative_base := mkPath (lit "/") [lit "media"]
|}.

Definition no_settings : Settings := sample_settings None None None.

(** The sample document: three blocks out of four cues. *)
Definition sample_world : @World sample_env :=
  snd (@__init__ sample_env no_settings sample_file (@boot sample_env)).

(** The sample document after [warn(b0)], [ad(b0)] and [warn(b1)]. *)
Definition sample_warned : @World sample_env :=
  snd (run_call (E := sample_env) (CallWarn 0%nat) sample_world).

Definition sample_confirmed : @World sample_env :=
  snd (run_call (E := sample_env) (CallAd 0%nat) sample_warned).

Definition sample_marked : @World sample_env :=
  snd (run_call (E := sample_env) (CallWarn 1%nat) sample_confirmed).

(** The long document, built under the override [sv]. *)
Definition sv_settings : Settings := sample_settings (Some (lit "sv")) None None.

Definition long_world : @World sample_env :=
  snd (@__init__ sample_env sv_settings long_file (@boot sample_env)).

(** The score of the block at a 1-based position of a document. *)
Definition score_at (w : @World sample_env) (position : nat) : option Z :=
  l ← blocks (self w) !! pred position; b ← heap w !! l; Some (regex_matches b).

(** ** The remaining methods and further notions *)

Section MoreNotions.
Context {E : Env} {S : Settings}.

(** [get_warning_indexes]: the order in which Python iterates a set is not
    specified; [elements] stands for it, and nothing stated of the result
    depends on the order. *)
Definition get_warning_indexes : M (list str) :=
  s ← get_self;
  for_each (λ l block, b ← load block; mret (l ++ [str_of_int (current_index b)]))
    (elements (warning_blocks s)) [].

(** Nothing but scores has changed from [w] to [w']: the document object,
    the trace and the set of objects are the same, and every block keeps
    its attributes but for a score that may have become 3. *)
Definition only_scores (w w' : World) : Prop :=
  self w' = self w ∧ trace w' = trace w ∧ next_loc w' = next_loc w ∧
  ∀ l, match heap w !! l, heap w' !! l with
       | Some b, Some b' =>
           content b' = content b ∧ current_index b' = current_index b ∧
           other b' = other b ∧
           (regex_matches b' = regex_matches b ∨ regex_matches b' = 3)
       | None, None => True
       | _, _ => False
       end.

(** The block [b] at (0-based) position [k] after the positions [ps] have
    been marked. *)
Definition marked (ps : list Z) (k : nat) (b : SubBlock Payload) : SubBlock Payload :=
  if bool_decide (Z.of_nat k + 1 ∈ ps) then set_regex_matches 3 b else b.

(** Every block of the sequence is a live object with content. *)
Definition contentful (w : World) : Prop :=
  ∀ l, l ∈ blocks (self w) →
       ∃ b, heap w !! l = Some b ∧ truthy (content b) = true.

(** The invariant of documents: distinct blocks, all with content, at least
    one. *)
Definition sound (w : World) : Prop :=
  blocks_fresh w ∧ contentful w ∧ blocks (self w) ≠ [].

(** The block sequence and the store are the same. *)
Definition same_store (w w' : World) : Prop :=
  blocks (self w') = blocks (self w) ∧ heap w' = heap w ∧ next_loc w' = next_loc w.

(** From [w] to [w'] the document is kept: same block sequence, file,
    language and display path, no object created or lost, and every block
    with the content it had. *)
Definition kept (w w' : World) : Prop :=
  blocks (self w') = blocks (self w) ∧ file (self w') = file (self w) ∧
  language (self w') = language (self w) ∧
  short_path (self w') = short_path (self w) ∧
  next_loc w' = next_loc w ∧
  ∀ l b, heap w !! l = Some b →
         ∃ b', heap w' !! l = Some b' ∧ content b' = content b ∧ other b' = other b.

(** The marks and the file of the document are the same. *)
Definition same_marks_file (w w' : World) : Prop :=
  ad_blocks (self w') = ad_blocks (self w) ∧
  warning_blocks (self w') = warning_blocks (self w) ∧
  file (self w') = file (self w).

(** The display path is the same. *)
Definition same_short_path (w w' : World) : Prop :=
  short_path (self w') = short_path (self w).

(** The calls that touch the mark sets. *)
Definition is_mark_call (c : Call) : bool :=
  match c with CallWarn _ | CallAd _ => true | _ => false end.

(** What a call of [warn] or [ad] makes of the document object. *)
Definition mark_subtitle (c : Call) (s : Subtitle) : Subtitle :=
  match c with
  | CallWarn b =>
      if bool_decide (b ∉ ad_blocks s)
      then with_warning_blocks ({[b]} ∪ warning_blocks s) s
      else s
  | CallAd b =>
      mkSubtitle (file s) (blocks s) ({[b]} ∪ ad_blocks s)
        (warning_blocks s ∖ {[b]}) (language s) (short_path s)
  | _ => s
  end.

(** What [to_content] writes for one block. *)
Definition render_block (b : SubBlock Payload) : str :=
  str_of_int (current_index b) ++ [chr_newline]
  ++ SubBlock_str b ++ [chr_newline] ++ [chr_newline].

(** What [to_content] writes for all blocks, before the cut. *)
Definition rendered (w : World) : str :=
  concat ((λ l, match heap w !! l with Some b => render_block b | None => [] end)
            <$> blocks (self w)).

(** The state after the tokens of the file name have been put to the
    registry in vain, with the language [und]. *)
Definition probed_world (w : World) : World :=
  mkWorld _ (heap w) (next_loc w) (with_language und (self w))
    (trace w ++ (EvIsLanguage <$>
       probed (suffix_token_spec <$> candidate_suffixes (file (self w))))).

(** The exceptions [__init__] can end with, for the file [f]. *)
Definition init_exception (f : Path) (e : Exn) : Prop :=
  e = OSError ∨ e = UnicodeDecodeError ∨
  (∃ detail, e = ParsingException detail (Some f)) ∨
  e = SubtitleContentException f ∨
  e = LangDetectException ∨ e = IndexError.

(** A line of white space only (or empty). *)
Definition blank_line (l : str) : bool := forallb uc_space l.

(** No line of [ls] but possibly the last is blank. *)
Fixpoint no_blank_before_last (ls : list str) : bool :=
  match ls with
  | x :: ((_ :: _) as tl) => negb (blank_line x) && no_blank_before_last tl
  | _ => true
  end.

(** The lines [_parse_file_content] hands to [_breakup_block]. *)
Definition normalized_lines (file_content : str) : list str :=
  split chr_newline
    (replace chr_em_dash (lit "--") (re_sub_blank_lines file_content)).

End MoreNotions.

(** ** A second sample environment: every file holds one cue *)

Definition one_cue_text : str :=
  join [chr_newline] (cue_lines (sample_cue (lit "1") (lit "Hello world")) ++ [[]]).

Definition one_cue_env : Env := {|
  Payload := unit;
  SubBlock_init := sample_SubBlock_init;
  SubBlock_str := content;
  is_language := sample_is_language;
  get_2letter_code := λ tag, if sample_is_language tag then Some tag else None;
  detect_langs := λ _, Some [mkLanguage (lit "en") 0.99%float];
  open_read := λ _ _, ReadOk one_cue_text;
  uc_numeric := sample_numeric;
  uc_space := sample_space
|}.

(** ** Python values: lemmas *)

Example split_ex :
  split chr_newline (lit "a" ++ [chr_newline] ++ lit "b" ++ [chr_newline])
  = [lit "a"; lit "b"; []].
Proof. reflexivity. Qed.

Example str_of_int_ex : str_of_int 12 = lit "12".
Proof. vm_compute. reflexivity. Qed.

Example slice_ex : py_slice [1;2;3;4] (-3) (-1) = [2;3].
Proof. reflexivity. Qed.

Example index_ex :
  py_index [10; 20; 30] (-1) = Some 30 ∧ py_index [10; 20; 30] 3 = None ∧
  py_index [10; 20; 30] (-4) = None.
Proof. repeat split. Qed.

Example suffixes_ex :
  suffixes (mkPath [] [lit "movie.en.forced.srt"])
  = [lit ".en"; lit ".forced"; lit ".srt"] ∧
  suffixes (mkPath [] [lit ".hidden"]) = [] ∧
  suffixes (mkPath [] [lit "movie."]) = [].
Proof. repeat split. Qed.

Example parsed_lang_ex :
  parsed_lang_of (lit ".pt_BR") = lit "pt" ∧ parsed_lang_of (lit ".en") = lit "en".
Proof. split; reflexivity. Qed.

(** Blank lines go, also when they hold white space; white space after the
    last newline of a run stays. *)
Example re_sub_ex :
  let nl := [chr_newline] in
  @re_sub_blank_lines sample_env
    (lit "1" ++ nl ++ lit " " ++ nl ++ nl ++ lit "  2" ++ nl ++ nl)
  = lit "1" ++ nl ++ lit "  2" ++ nl.
Proof. reflexivity. Qed.

Example sample_world_blocks :
  blocks (self sample_world) = [0; 1; 2]%nat ∧
  language (self sample_world) = lit "en" ∧
  fst (@__init__ sample_env no_settings sample_file (@boot sample_env)) = Ok tt.
Proof. vm_compute. auto. Qed.

(** ** Running the monad *)

Section Run.
Context {E : Env}.

Lemma run_bind {A B} (m : M A) (f : A → M B) w :
  (m ≫= f) w =
  match m w with
  | (Ok a, w') => f a w'
  | (Raise e, w') => (Raise e, w')
  end.
Proof. reflexivity. Qed.

Lemma run_bind_ok {A B} (m : M A) (f : A → M B) w a w' :
  m w = (Ok a, w') → (m ≫= f) w = f a w'.
Proof. intros Hm. rewrite run_bind, Hm. reflexivity. Qed.

Lemma run_bind_raise {A B} (m : M A) (f : A → M B) w e w' :
  m w = (Raise e, w') → (m ≫= f) w = (Raise e, w').
Proof. intros Hm. rewrite run_bind, Hm. reflexivity. Qed.

Lemma run_ret {A} (a : A) w : (mret a : M A) w = (Ok a, w).
Proof. reflexivity. Qed.

Lemma for_each_cons {A B} (body : B → A → M B) x xs acc :
  for_each body (x :: xs) acc = body acc x ≫= for_each body xs.
Proof. reflexivity. Qed.

Lemma run_get_self {B} (f : Subtitle → M B) w :
  (get_self ≫= f) w = f (self w) w.
Proof. reflexivity. Qed.

Lemma preserves_ret {A} P (a : A) : preserves P (mret a).
Proof. intros w r w' [= <- <-]. auto. Qed.

Lemma preserves_raise {A} P e : preserves P (raise e : M A).
Proof. intros w r w' [= <- <-]. auto. Qed.

Lemma preserves_get_self P : preserves P get_self.
Proof. intros w r w' [= <- <-]. auto. Qed.

Lemma preserves_bind {A B} P (m : M A) (f : A → M B) :
  preserves P m → (∀ a, preserves P (f a)) → preserves P (m ≫= f).
Proof.
  intros Hm Hf w r w'. rewrite run_bind.
  destruct (m w) as [[a|e] w1] eqn:Em; intros Hr HP.
  - eapply Hf; eauto.
  - injection Hr as <- <-. eauto.
Qed.

Lemma preserves_try_except {A} P (m : M A) h :
  preserves P m → (∀ e, preserves P (h e)) → preserves P (try_except m h).
Proof.
  intros Hm Hh w r w'. unfold try_except.
  destruct (m w) as [[a|e] w1] eqn:Em; intros Hr HP.
  - injection Hr as <- <-. eauto.
  - eapply Hh; eauto.
Qed.

Lemma preserves_getitem {A} P (l : list A) k : preserves P (getitem l k).
Proof.
  unfold getitem. destruct (py_index l k).
  - apply preserves_ret.
  - apply preserves_raise.
Qed.

Lemma preserves_for_each {A B} P (body : B → A → M B) xs :
  (∀ acc x, preserves P (body acc x)) → ∀ acc, preserves P (for_each body xs acc).
Proof.
  intros Hb. induction xs as [|x xs IH]; intros acc; simpl.
  - apply preserves_ret.
  - apply preserves_bind; auto.
Qed.

Lemma preserves_if {A} P (c : bool) (m1 m2 : M A) :
  preserves P m1 → preserves P m2 → preserves P (if c then m1 else m2).
Proof. destruct c; auto. Qed.

Lemma preserves_load P l : preserves P (load l).
Proof.
  intros w r w'. unfold load. destruct (heap w !! l); intros [= <- <-]; auto.
Qed.

Lemma preserves_modify_self P f :
  (∀ w, P w → P (with_self (f (self w)) w)) → preserves P (modify_self f).
Proof. intros Hf w r w' [= <- <-]. auto. Qed.

Lemma preserves_emit P e :
  (∀ w, P w → P (mkWorld _ (heap w) (next_loc w) (self w) (trace w ++ [e]))) →
  preserves P (emit e).
Proof. intros Hf w r w' [= <- <-]. auto. Qed.

Lemma preserves_alloc P b :
  (∀ w, P w → P (mkWorld _ (<[next_loc w := b]> (heap w)) (S (next_loc w))
                    (self w) (trace w))) →
  preserves P (alloc b).
Proof. intros Hf w r w' [= <- <-]. auto. Qed.

Lemma preserves_store P l b :
  (∀ w, P w → P (with_heap (<[l := b]> (heap w)) w)) → preserves P (store l b).
Proof. intros Hf w r w' [= <- <-]. auto. Qed.

End Run.

Create HintDb preserves.
#[global] Hint Resolve preserves_ret preserves_raise
  preserves_get_self preserves_getitem preserves_load : preserves.

(** Splits a goal [preserves P m] along the structure of [m]. *)
Ltac preserves_step :=
  lazymatch goal with
  | |- preserves _ (_ ≫= _) => apply preserves_bind; [|intros ?]
  | |- preserves _ (try_except _ _) => apply preserves_try_except; [|intros ?]
  | |- preserves _ (for_each _ _ _) => apply preserves_for_each; intros ? ?
  | |- preserves _ (if _ then _ else _) => apply preserves_if
  | |- preserves _ (modify_self _) => apply preserves_modify_self
  | |- preserves _ (emit _) => apply preserves_emit
  | |- preserves _ (alloc _) => apply preserves_alloc
  | |- preserves _ (store _ _) => apply preserves_store
  | |- preserves _ (match ?e with _ => _ end) => destruct e
  | |- preserves _ _ => solve [auto with preserves]
  | |- _ => idtac
  end.

Ltac preserves_auto := repeat (progress preserves_step).

(** ** The mark sets *)

Section Marks.
Context {E : Env} {S : Settings}.

Lemma warn_run block w :
  warn block w =
  (Ok tt,
   if bool_decide (block ∉ ad_blocks (self w))
   then with_self (with_warning_blocks ({[block]} ∪ warning_blocks (self w)) (self w)) w
   else w).
Proof. unfold warn. rewrite run_bind. simpl. case_bool_decide; reflexivity. Qed.

Lemma ad_run block w :
  ad block w =
  (Ok tt,
   with_self (mkSubtitle (file (self w)) (blocks (self w))
                ({[block]} ∪ ad_blocks (self w))
                (warning_blocks (self w) ∖ {[block]})
                (language (self w)) (short_path (self w))) w).
Proof.
  unfold ad, try_except, warning_blocks_remove. rewrite !run_bind. simpl.
  case_bool_decide as Hin; simpl.
  - reflexivity.
  - replace (warning_blocks (self w) ∖ {[block]}) with (warning_blocks (self w))
      by set_solver.
    destruct w as [h n s t]; destruct s; reflexivity.
Qed.

(** C3: [warn(b)] then [ad(b)] leaves [b] in the ad set and out of the
    warning set; after [ad(b)], [warn(b)] changes nothing, so that [b] is in
    the ad set only; and a second [ad(b)] changes neither set. *)
Theorem warn_ad_sticky (b : loc) (w : World) :
  (∃ w', (warn b;; ad b) w = (Ok tt, w') ∧
         b ∈ ad_blocks (self w') ∧ b ∉ warning_blocks (self w')) ∧
  (∃ w1, ad b w = (Ok tt, w1) ∧ warn b w1 = (Ok tt, w1) ∧
         (ad b;; warn b) w = (Ok tt, w1) ∧
         b ∈ ad_blocks (self w1) ∧ b ∉ warning_blocks (self w1)) ∧
  (∃ w1 w2, ad b w = (Ok tt, w1) ∧ ad b w1 = (Ok tt, w2) ∧
            ad_blocks (self w2) = ad_blocks (self w1) ∧
            warning_blocks (self w2) = warning_blocks (self w1)).
Proof.
  repeat split.
  - eexists. rewrite run_bind, warn_run, ad_run. split; [reflexivity|].
    simpl. split; set_solver.
  - eexists. split; [apply ad_run|].
    assert (Hw : ∀ w1, b ∈ ad_blocks (self w1) → warn b w1 = (Ok tt, w1)).
    { intros w1 Hin. rewrite warn_run.
      rewrite bool_decide_eq_false_2; [reflexivity|]. auto. }
    rewrite run_bind, ad_run, !Hw by (simpl; set_solver).
    repeat split; simpl; set_solver.
  - do 2 eexists. rewrite !ad_run. repeat split; simpl; set_solver.
Qed.

End Marks.

(** ** What the methods leave alone *)

Section Frames.
Context {E : Env} {S : Settings}.
Variable R : World → World → Prop.
Variable P : World → Prop.
Hypothesis HP : closed_under R P.

Hypothesis R_emit :
  ∀ w e, R w (mkWorld _ (heap w) (next_loc w) (self w) (trace w ++ [e])).
Hypothesis R_store : ∀ w l b, R w (with_heap (<[l := b]> (heap w)) w).
Hypothesis R_alloc :
  ∀ w b, R w (mkWorld _ (<[next_loc w := b]> (heap w)) (Datatypes.S (next_loc w))
                (self w) (trace w)).
Hypothesis R_language : ∀ w l, R w (with_self (with_language l (self w)) w).
Hypothesis R_short_path : ∀ w p, R w (with_self (with_short_path p (self w)) w).
Hypothesis R_blocks : ∀ w bs, R w (with_self (with_blocks bs (self w)) w).

Ltac frame :=
  preserves_auto;
  try (let w := fresh "w" in let H := fresh "H" in
       intros w H; eapply HP; [|exact H]; eauto).

Lemma mark_blocks_for_deletion_frame purge_list :
  preserves P (mark_blocks_for_deletion purge_list).
Proof using HP R_store.
  induction purge_list as [|index rest IH]; simpl; frame.
Qed.

Lemma sub_content_of_blocks_frame : preserves P sub_content_of_blocks.
Proof using HP. unfold sub_content_of_blocks. frame. Qed.

Lemma language_is_correct_frame : preserves P language_is_correct.
Proof using HP R_emit.
  unfold language_is_correct, call_get_2letter_code, call_detect_langs.
  frame; apply sub_content_of_blocks_frame.
Qed.

Lemma to_content_frame : preserves P to_content.
Proof using HP. unfold to_content. frame. Qed.

Lemma reindex_frame : preserves P reindex.
Proof using HP R_store. unfold reindex. frame. Qed.

Lemma any_content_frame bs : preserves P (any_content bs).
Proof using HP. induction bs as [|b bs IH]; simpl; frame. Qed.

Lemma bool_frame : preserves P __bool__.
Proof using HP. unfold __bool__. frame. apply any_content_frame. Qed.

Lemma read_file_frame f : preserves P (read_file f).
Proof using HP. unfold read_file, open_and_read. preserves_auto. Qed.

Lemma breakup_step_frame raw last_break i :
  preserves P (breakup_step raw last_break i).
Proof using HP R_alloc R_blocks. unfold breakup_step, new_SubBlock. frame. Qed.

Lemma parse_file_content_frame file_content :
  preserves P (_parse_file_content file_content).
Proof using HP R_alloc R_blocks.
  unfold _parse_file_content, _breakup_block. preserves_auto.
  apply breakup_step_frame.
Qed.

Lemma determine_from_suffixes_frame sufs :
  preserves P (determine_from_suffixes sufs).
Proof using HP R_emit R_language.
  induction sufs as [|suffix rest IH]; simpl; unfold call_is_language; frame.
Qed.

Lemma determine_language_frame : preserves P determine_language.
Proof using HP R_emit R_language.
  unfold determine_language, call_detect_langs. frame.
  - apply determine_from_suffixes_frame.
  - apply sub_content_of_blocks_frame.
Qed.

(** Construction ends in a state with [P] as soon as the blank document
    has it and segmentation keeps it. *)
Lemma init_frame subtitle_file w r w' :
  (∀ file_content, preserves P (_parse_file_content file_content)) →
  __init__ subtitle_file w = (r, w') →
  P (with_self (mkSubtitle subtitle_file [] ∅ ∅ [] subtitle_file) w) →
  P w'.
Proof using HP R_emit R_store R_language R_short_path.
  intros Hparse. unfold __init__. rewrite run_bind. simpl.
  revert w'. generalize (with_self (mkSubtitle subtitle_file [] ∅ ∅ [] subtitle_file) w).
  intros w1 w' Hrun. revert Hrun.
  match goal with |- ?m w1 = _ → _ => assert (preserves P m) as Hm end.
  { frame.
    - apply read_file_frame.
    - apply bool_frame.
    - apply determine_language_frame.
    - apply language_is_correct_frame.
    - apply mark_blocks_for_deletion_frame. }
  intros Hrun. eapply Hm, Hrun.
Qed.

End Frames.

Section MarksDisjoint.
Context {E : Env} {S : Settings}.

Lemma marks_disjoint_closed : closed_under same_marks marks_disjoint.
Proof. intros w w' [Ha Hw]. unfold marks_disjoint. rewrite Ha, Hw. auto. Qed.

Lemma marks_disjoint_closed_self : closed_under same_self marks_disjoint.
Proof. intros w w' Hs. unfold marks_disjoint. rewrite Hs. auto. Qed.

Lemma run_call_marks_disjoint c w r w' :
  run_call c w = (r, w') → marks_disjoint w → marks_disjoint w'.
Proof.
  pose proof marks_disjoint_closed_self as HP.
  unfold marks_disjoint.
  destruct c as [b|b|ps| |]; simpl.
  - rewrite warn_run. intros [= <- <-]. case_bool_decide; simpl; set_solver.
  - rewrite ad_run. intros [= <- <-]. simpl. set_solver.
  - apply (mark_blocks_for_deletion_frame _ _ HP); reflexivity.
  - apply (reindex_frame _ _ HP); reflexivity.
  - assert (Hp : preserves marks_disjoint (run_call CallRender)).
    { apply preserves_bind; [apply (to_content_frame _ _ HP)|intros; apply preserves_ret]. }
    apply Hp.
Qed.

(** C2: in every state reachable from a freshly constructed document by
    [warn], [ad], [mark_blocks_for_deletion], [reindex] and rendering, the
    ad set and the warning set are disjoint. *)
Theorem ad_warning_disjoint (w : World) :
  reachable w → ad_blocks (self w) ## warning_blocks (self w).
Proof.
  induction 1 as [f w0 w Hinit | c w r w' Hreach IH Hcall].
  - pose proof marks_disjoint_closed as HP.
    eapply (init_frame same_marks marks_disjoint HP); try (split; reflexivity).
    + intros fc. apply (parse_file_content_frame _ _ HP); split; reflexivity.
    + exact Hinit.
    + unfold marks_disjoint. simpl. set_solver.
  - eapply run_call_marks_disjoint; eauto.
Qed.

End MarksDisjoint.

(** ** Segmentation *)

Section Segmentation.
Context {E : Env} {S : Settings}.

(** One round of the loop, spelled out. *)
Lemma breakup_step_run raw last_break i w :
  breakup_step raw last_break i w =
  match py_index raw i with
  | None => (Raise IndexError, w)
  | Some line =>
      if contains arrow line then
        match py_index raw (i - 1) with
        | None => (Raise IndexError, w)
        | Some prev =>
            if isnumeric prev then
              match SubBlock_init (join [chr_newline] (py_slice raw last_break (i - 1))) with
              | inr b => (Ok (i - 1), emitted b w)
              | inl detail => (Raise (ParsingException detail None), w)
              end
            else (Ok last_break, w)
        end
      else (Ok last_break, w)
  end.
Proof.
  unfold breakup_step, getitem, new_SubBlock.
  destruct (py_index raw i) as [line|]; [|reflexivity].
  rewrite run_bind, run_ret.
  destruct (contains arrow line); [|reflexivity].
  destruct (py_index raw (i - 1)) as [prev|]; [|reflexivity].
  rewrite !run_bind, !run_ret.
  destruct (isnumeric prev); [|reflexivity].
  rewrite !run_bind.
  destruct (SubBlock_init _) as [detail|b]; [reflexivity|].
  unfold alloc. rewrite run_bind. unfold load at 1. simpl.
  rewrite lookup_insert_eq, run_bind. unfold emitted.
  destruct (truthy (content b)); reflexivity.
Qed.

Lemma blocks_fresh_closed : closed_under same_blocks blocks_fresh.
Proof.
  intros w w' (Hb & Hn & Hh) [Hnd Hl]. split; rewrite Hb; [exact Hnd|].
  intros l Hin. destruct (Hl l Hin) as [Hlt Hsome]. split; [lia|auto].
Qed.

Lemma blocks_fresh_emitted b w : blocks_fresh w → blocks_fresh (emitted b w).
Proof.
  intros [Hnd Hl]. unfold blocks_fresh, emitted. simpl.
  assert (Hkeep : ∀ l, l ∈ blocks (self w) →
            (l < Datatypes.S (next_loc w))%nat ∧
            is_Some (<[next_loc w := b]> (heap w) !! l)).
  { intros l Hin. destruct (Hl l Hin) as [Hlt Hsome]. split; [lia|].
    rewrite lookup_insert_ne by lia. exact Hsome. }
  destruct (truthy (content b)); simpl.
  - split.
    + apply NoDup_app. repeat split; [exact Hnd| |apply NoDup_singleton].
      intros l Hin Hin'. apply list_elem_of_singleton in Hin'. subst l.
      destruct (Hl _ Hin). lia.
    + intros l Hin. apply elem_of_app in Hin as [Hin|Hin]; [auto|].
      apply list_elem_of_singleton in Hin. subst l. split; [lia|].
      rewrite lookup_insert_eq. eauto.
  - split; auto.
Qed.

Lemma breakup_step_fresh raw last_break i :
  preserves blocks_fresh (breakup_step raw last_break i).
Proof.
  intros w r w'. rewrite breakup_step_run.
  repeat (case_match; try (intros [= <- <-]; auto)).
  apply blocks_fresh_emitted.
Qed.

Lemma parse_file_content_fresh file_content :
  preserves blocks_fresh (_parse_file_content file_content).
Proof.
  unfold _parse_file_content, _breakup_block. preserves_auto.
  apply breakup_step_fresh.
Qed.

Lemma same_blocks_refl w : same_blocks w w.
Proof. repeat split; auto. Qed.

Lemma same_blocks_store w l b : same_blocks w (with_heap (<[l := b]> (heap w)) w).
Proof.
  repeat split; simpl; auto. intros l' Hs.
  destruct (decide (l = l')) as [->|Hne].
  - rewrite lookup_insert_eq. eauto.
  - rewrite lookup_insert_ne by exact Hne. exact Hs.
Qed.

Lemma init_blocks_fresh subtitle_file w r w' :
  __init__ subtitle_file w = (r, w') → blocks_fresh w'.
Proof.
  intros Hinit.
  eapply (init_frame same_blocks blocks_fresh blocks_fresh_closed).
  - intros; repeat split; simpl; auto.
  - apply same_blocks_store.
  - intros; repeat split; simpl; auto.
  - intros; repeat split; simpl; auto.
  - apply parse_file_content_fresh.
  - exact Hinit.
  - split; simpl; [apply NoDup_nil_2|]. intros l Hin. inversion Hin.
Qed.

Lemma blocks_fresh_ok w : blocks_fresh w → blocks_ok w.
Proof. intros [Hnd Hl]. split; [exact Hnd|]. intros l Hin. apply Hl, Hin. Qed.

Lemma run_call_blocks_fresh c w r w' :
  run_call c w = (r, w') → blocks_fresh w → blocks_fresh w'.
Proof.
  pose proof blocks_fresh_closed as HP.
  destruct c as [b|b|ps| |]; simpl.
  - rewrite warn_run. intros [= <- <-]. case_bool_decide; auto.
  - rewrite ad_run. intros [= <- <-]. auto.
  - apply (mark_blocks_for_deletion_frame _ _ HP). apply same_blocks_store.
  - apply (reindex_frame _ _ HP). apply same_blocks_store.
  - assert (Hp : preserves blocks_fresh (run_call CallRender)).
    { apply preserves_bind; [apply (to_content_frame _ _ HP)|intros; apply preserves_ret]. }
    apply Hp.
Qed.

Lemma reachable_blocks_fresh w : reachable w → blocks_fresh w.
Proof.
  induction 1 as [f w0 w Hinit | c w r w' Hreach IH Hcall].
  - eapply init_blocks_fresh, Hinit.
  - eapply run_call_blocks_fresh; eauto.
Qed.

Lemma reachable_blocks_ok w : reachable w → blocks_ok w.
Proof. intros Hr. apply blocks_fresh_ok, reachable_blocks_fresh, Hr. Qed.

End Segmentation.

(** ** Reindexing and rendering *)

Section Serializer.
Context {E : Env} {S : Settings}.

Lemma load_live l w :
  is_Some (heap w !! l) → ∃ b, heap w !! l = Some b ∧ load l w = (Ok b, w).
Proof. intros [b Hb]. exists b. unfold load. rewrite Hb. auto. Qed.

(** A loop that only reads the blocks leaves the state alone and ends. *)
Lemma for_each_load {B} (f : B → SubBlock Payload → B) bs acc w :
  (∀ l, l ∈ bs → is_Some (heap w !! l)) →
  ∃ out, for_each (λ acc block, b ← load block; mret (f acc b)) bs acc w = (Ok out, w).
Proof.
  revert acc. induction bs as [|l bs IH]; intros acc Hlive; simpl.
  - eexists. reflexivity.
  - destruct (load_live l w) as (b & _ & Hload); [apply Hlive; left|].
    rewrite run_bind, run_bind, Hload, run_ret.
    apply IH. intros l' Hin. apply Hlive. right. exact Hin.
Qed.

Lemma to_content_pure w :
  blocks_ok w → ∃ out, to_content w = (Ok out, w).
Proof.
  intros [_ Hlive]. unfold to_content. rewrite run_get_self.
  destruct (for_each_load
    (λ acc b, acc ++ str_of_int (current_index b) ++ [chr_newline]
                  ++ SubBlock_str b ++ [chr_newline] ++ [chr_newline])
    (blocks (self w)) [] w Hlive) as [out Hout].
  rewrite run_bind, Hout, run_ret. eexists. reflexivity.
Qed.

Lemma reindex_loop bs : ∀ i w,
  NoDup bs → (∀ l, l ∈ bs → is_Some (heap w !! l)) →
  ∃ h', for_each reindex_body bs i w = (Ok (i + len bs), with_heap h' w) ∧
        (∀ k l, bs !! k = Some l →
           ∃ b, heap w !! l = Some b ∧
                h' !! l = Some (set_current_index (i + Z.of_nat k) b)) ∧
        (∀ l, l ∉ bs → h' !! l = heap w !! l).
Proof.
  induction bs as [|l0 bs IH]; intros i w Hnd Hlive.
  - exists (heap w). simpl. rewrite run_ret. unfold len. simpl.
    rewrite Z.add_0_r. destruct w. repeat split; auto.
    intros k l Hk. discriminate.
  - apply NoDup_cons in Hnd as [Hnotin Hnd].
    destruct (load_live l0 w) as (b0 & Hb0 & Hload); [apply Hlive; left|].
    set (w0 := with_heap (<[l0 := set_current_index i b0]> (heap w)) w).
    destruct (IH (i + 1) w0 Hnd) as (h' & Hrun & Hidx & Hout).
    { intros l Hin. simpl. destruct (decide (l0 = l)) as [->|Hne].
      - rewrite lookup_insert_eq. eauto.
      - rewrite lookup_insert_ne by exact Hne. apply Hlive. right. exact Hin. }
    exists h'. split; [|split].
    + assert (Hbody : reindex_body i l0 w = (Ok (i + 1), w0)).
      { unfold reindex_body. rewrite (run_bind_ok _ _ _ _ _ Hload). reflexivity. }
      rewrite for_each_cons, (run_bind_ok _ _ _ _ _ Hbody), Hrun.
      unfold len. simpl length. f_equal. f_equal. lia.
    + intros [|k] l Hk; simpl in Hk.
      * injection Hk as <-. exists b0. split; [exact Hb0|].
        rewrite (Hout l0 Hnotin). simpl. rewrite lookup_insert_eq.
        do 2 f_equal. lia.
      * destruct (Hidx k l Hk) as (b & Hb & Hb').
        assert (l ≠ l0).
        { intros ->. apply Hnotin. eapply list_elem_of_lookup_2, Hk. }
        simpl in Hb. rewrite lookup_insert_ne in Hb by auto.
        exists b. split; [exact Hb|]. rewrite Hb'. do 2 f_equal. lia.
    + intros l Hl. apply not_elem_of_cons in Hl as [Hne Hl].
      rewrite (Hout l Hl). simpl. rewrite lookup_insert_ne by auto. reflexivity.
Qed.

(** C8: on every document, [reindex] returns and leaves the block sequence as
    it is, the block at (0-based) position [k] gets index [k + 1] and keeps
    its other attributes, no other object changes; and after it two
    successive renderings give the same string and change nothing. *)
Theorem reindex_then_render (w : World) :
  reachable w →
  ∃ w1,
    reindex w = (Ok tt, w1) ∧
    self w1 = self w ∧
    (∀ k l, blocks (self w) !! k = Some l →
       ∃ b, heap w !! l = Some b ∧
            heap w1 !! l = Some (set_current_index (Z.of_nat k + 1) b)) ∧
    (∀ l, l ∉ blocks (self w) → heap w1 !! l = heap w !! l) ∧
    ∃ out,
      (first ← to_content; second ← to_content; mret (first, second)) w1
      = (Ok (out, out), w1).
Proof.
  intros Hreach. destruct (reachable_blocks_ok w Hreach) as [Hnd Hlive].
  destruct (reindex_loop (blocks (self w)) 1 w Hnd Hlive) as (h' & Hrun & Hidx & Hout).
  exists (with_heap h' w). split; [|split; [|split; [|split]]].
  - unfold reindex. rewrite run_get_self.
    change (for_each _ (blocks (self w)) 1) with (for_each reindex_body (blocks (self w)) 1).
    rewrite run_bind, Hrun. reflexivity.
  - reflexivity.
  - intros k l Hk. destruct (Hidx k l Hk) as (b & Hb & Hb').
    exists b. split; [exact Hb|]. simpl. rewrite Hb'. do 2 f_equal. lia.
  - intros l Hl. simpl. apply Hout, Hl.
  - assert (Hok : blocks_ok (with_heap h' w)).
    { split; simpl; [exact Hnd|]. intros l Hin.
      destruct (list_elem_of_lookup_1 _ _ Hin) as [k Hk].
      destruct (Hidx k l Hk) as (b & _ & Hb'). rewrite Hb'. eauto. }
    destruct (to_content_pure _ Hok) as [out Hout'].
    exists out. rewrite run_bind, Hout', run_bind, Hout', run_ret. reflexivity.
Qed.

End Serializer.

(** ** Language validation and determination *)

Section LanguageResolver.
Context {E : Env} {S : Settings}.

Lemma sub_content_loop bs acc w :
  (∀ l, l ∈ bs → is_Some (heap w !! l)) →
  for_each (λ acc block, b ← load block; mret (acc ++ content b)) bs acc w
  = (Ok (acc ++ concat ((λ l, match heap w !! l with
                               | Some b => content b
                               | None => []
                               end) <$> bs)), w).
Proof.
  revert acc. induction bs as [|l bs IH]; intros acc Hlive.
  - simpl. rewrite app_nil_r. reflexivity.
  - destruct (load_live l w) as (b & Hb & Hload); [apply Hlive; left|].
    rewrite for_each_cons, run_bind, (run_bind_ok _ _ _ _ _ Hload), run_ret.
    rewrite IH by (intros l' Hin; apply Hlive; right; exact Hin).
    simpl. rewrite Hb, app_assoc. reflexivity.
Qed.

Lemma sub_content_of_blocks_run w :
  blocks_ok w → sub_content_of_blocks w = (Ok (doc_content w), w).
Proof.
  intros [_ Hlive]. unfold sub_content_of_blocks. rewrite run_get_self.
  rewrite sub_content_loop by exact Hlive. reflexivity.
Qed.

Lemma call_get_2letter_code_run {B} tag (f : option str → M B) w :
  (call_get_2letter_code tag ≫= f) w
  = f (get_2letter_code tag) (logged (EvGet2LetterCode tag) w).
Proof. reflexivity. Qed.

Lemma call_is_language_run {B} tag (f : bool → M B) w :
  (call_is_language tag ≫= f) w = f (is_language tag) (logged (EvIsLanguage tag) w).
Proof. reflexivity. Qed.

Lemma call_detect_langs_run {B} text (f : list Language → M B) w :
  (call_detect_langs text ≫= f) w
  = match detect_langs text with
    | Some guesses => f guesses (logged (EvDetectLangs text) w)
    | None => (Raise LangDetectException, logged (EvDetectLangs text) w)
    end.
Proof.
  unfold call_detect_langs. rewrite !run_bind. simpl.
  destruct (detect_langs text); reflexivity.
Qed.

(** [language_is_correct], spelled out. *)
Lemma language_is_correct_run w :
  blocks_ok w →
  language_is_correct w =
  let tag := language (self w) in
  if bool_decide (tag = und) then (Ok true, w) else
  let w1 := logged (EvGet2LetterCode tag) w in
  if negb (truthy_opt (get_2letter_code tag)) then (Ok true, w1) else
  if len (doc_content w) <? 500 then (Ok true, w1) else
  (verdict (get_2letter_code tag) (detect_langs (doc_content w)),
   logged (EvDetectLangs (doc_content w)) w1).
Proof.
  intros Hok. unfold language_is_correct. rewrite run_get_self.
  unfold str_eqb. cbv zeta. case_bool_decide; [reflexivity|].
  rewrite call_get_2letter_code_run.
  destruct (negb (truthy_opt (get_2letter_code (language (self w))))); [reflexivity|].
  assert (Hok1 : blocks_ok (logged (EvGet2LetterCode (language (self w))) w)) by exact Hok.
  rewrite (run_bind_ok _ _ _ _ _ (sub_content_of_blocks_run _ Hok1)).
  change (doc_content (logged _ w)) with (doc_content w).
  destruct (len (doc_content w) <? 500); [reflexivity|].
  rewrite call_detect_langs_run. unfold verdict.
  destruct (detect_langs (doc_content w)) as [[|top rest]|]; reflexivity.
Qed.

(** C7: [language_is_correct] answers true for the tag [und], for a tag
    without 2-letter code and for less than 500 characters of content;
    otherwise its answer is whether the detector's first guess is the tag's
    2-letter code with a probability above 0.8. It never changes the
    document, whose language tag stays as it was. *)
Theorem language_is_correct_spec (w : World) :
  reachable w →
  ∃ r w',
    language_is_correct w = (r, w') ∧
    self w' = self w ∧ heap w' = heap w ∧
    language (self w') = language (self w) ∧
    (language (self w) = und → r = Ok true) ∧
    (truthy_opt (get_2letter_code (language (self w))) = false → r = Ok true) ∧
    (len (doc_content w) < 500 → r = Ok true) ∧
    (language (self w) ≠ und →
     truthy_opt (get_2letter_code (language (self w))) = true →
     500 ≤ len (doc_content w) →
     ∀ top rest,
       detect_langs (doc_content w) = Some (top :: rest) →
       r = Ok (bool_decide (Some (lang top) = get_2letter_code (language (self w)))
               && (0.8 <? prob top)%float)).
Proof.
  intros Hreach. pose proof (reachable_blocks_ok w Hreach) as Hok.
  rewrite (language_is_correct_run w Hok). cbv zeta.
  case_bool_decide as Hund.
  { do 2 eexists. split; [reflexivity|]. repeat split; auto. congruence. }
  destruct (truthy_opt (get_2letter_code (language (self w)))) eqn:Hcode; simpl.
  2: { do 2 eexists. split; [reflexivity|]. repeat split; auto. congruence. }
  destruct (len (doc_content w) <? 500) eqn:Hlen.
  { do 2 eexists. split; [reflexivity|]. repeat split; auto.
    intros _ _ Hge. apply Z.ltb_lt in Hlen. lia. }
  do 2 eexists. split; [reflexivity|]. apply Z.ltb_ge in Hlen.
  repeat split; auto; try congruence; try lia.
  intros _ _ _ top rest Hdet. rewrite Hdet. reflexivity.
Qed.

End LanguageResolver.

(** ** Construction *)

Section Construction.
Context {E : Env} {S : Settings}.

(** [__init__] up to the content check, spelled out. *)
Lemma init_run subtitle_file w :
  __init__ subtitle_file w =
  match read_file subtitle_file (blank subtitle_file w) with
  | (Raise e, w1) => (Raise e, w1)
  | (Ok file_content, w1) =>
      match _parse_file_content file_content w1 with
      | (Raise e, w2) =>
          (Raise match e with
                 | ParsingException d _ => ParsingException d (Some subtitle_file)
                 | _ => e
                 end, w2)
      | (Ok _, w2) =>
          match __bool__ (set_short_path subtitle_file w2) with
          | (Raise e, w3) => (Raise e, w3)
          | (Ok false, w3) => (Raise (SubtitleContentException subtitle_file), w3)
          | (Ok true, w3) => init_tail w3
          end
      end
  end.
Proof.
  unfold __init__. rewrite run_bind. simpl. fold (blank subtitle_file w).
  rewrite run_bind.
  destruct (read_file subtitle_file (blank subtitle_file w)) as [[fc|e] w1]; [|reflexivity].
  rewrite run_bind. unfold try_except at 1.
  destruct (_parse_file_content fc w1) as [[[]|e] w2].
  - rewrite run_bind. simpl. fold (set_short_path subtitle_file w2).
    rewrite run_bind.
    destruct (__bool__ (set_short_path subtitle_file w2)) as [[[|]|e] w3]; reflexivity.
  - destruct e; reflexivity.
Qed.

Lemma read_file_state f w r w' : read_file f w = (r, w') → w' = w.
Proof.
  unfold read_file, try_except, open_and_read.
  destruct (open_read f utf_8); simpl; try (intros [= <- <-]; reflexivity).
  destruct (open_read f cp1252); simpl; intros [= <- <-]; reflexivity.
Qed.

Lemma any_content_run bs w :
  (∀ l, l ∈ bs → is_Some (heap w !! l)) →
  any_content bs w
  = (Ok (existsb (λ l, match heap w !! l with
                       | Some b => truthy (content b)
                       | None => false
                       end) bs), w).
Proof.
  induction bs as [|l bs IH]; intros Hlive; simpl; [reflexivity|].
  destruct (load_live l w) as (b & Hb & Hload); [apply Hlive; left|].
  rewrite (run_bind_ok _ _ _ _ _ Hload), Hb.
  destruct (truthy (content b)); [reflexivity|].
  apply IH. intros l' Hin. apply Hlive. right. exact Hin.
Qed.

Lemma bool_run w : blocks_ok w → __bool__ w = (Ok (has_content w), w).
Proof.
  intros [_ Hlive]. unfold __bool__. rewrite run_get_self.
  apply any_content_run, Hlive.
Qed.

Lemma blocks_fresh_blank f w : blocks_fresh (blank f w).
Proof. split; simpl; [apply NoDup_nil_2|]. intros l Hin. inversion Hin. Qed.

(** The state in which the content check runs. *)
Lemma parsed_blocks_ok f w fc w1 r w2 :
  read_file f (blank f w) = (Ok fc, w1) →
  _parse_file_content fc w1 = (r, w2) →
  blocks_ok (set_short_path f w2).
Proof.
  intros Hread Hparse. apply read_file_state in Hread. subst w1.
  apply blocks_fresh_ok.
  apply (blocks_fresh_closed w2); [repeat split; simpl; auto|].
  eapply parse_file_content_fresh; [exact Hparse|apply blocks_fresh_blank].
Qed.

End Construction.

(** ** Which exceptions a method can raise *)

Section Raises.
Context {E : Env} {S : Settings}.

Variable Q : Exn → Prop.
Hypothesis Q_index : Q IndexError.
Hypothesis Q_dangling : Q DanglingReference.
Hypothesis Q_detect : Q LangDetectException.

Lemma raises_ret {A} (a : A) : raises_only Q (mret a).
Proof. intros w e w' [=]. Qed.

Lemma raises_raise {A} e : Q e → raises_only Q (raise e : M A).
Proof. intros He w e' w' [= <- <-]. exact He. Qed.

Lemma raises_bind {A B} (m : M A) (f : A → M B) :
  raises_only Q m → (∀ a, raises_only Q (f a)) → raises_only Q (m ≫= f).
Proof.
  intros Hm Hf w e w'. rewrite run_bind.
  destruct (m w) as [[a|e1] w1] eqn:Em.
  - apply Hf.
  - intros [= <- <-]. eapply Hm, Em.
Qed.

Lemma raises_if {A} (c : bool) (m1 m2 : M A) :
  raises_only Q m1 → raises_only Q m2 → raises_only Q (if c then m1 else m2).
Proof. destruct c; auto. Qed.

Lemma raises_for_each {A B} (body : B → A → M B) xs :
  (∀ acc x, raises_only Q (body acc x)) → ∀ acc, raises_only Q (for_each body xs acc).
Proof.
  intros Hb. induction xs as [|x xs IH]; intros acc; simpl.
  - apply raises_ret.
  - apply raises_bind; auto.
Qed.

Lemma raises_getitem {A} (l : list A) k : raises_only Q (getitem l k).
Proof using Q_index.
  unfold getitem. destruct (py_index l k); [apply raises_ret|apply raises_raise, Q_index].
Qed.

Lemma raises_load l : raises_only Q (load l).
Proof using Q_dangling.
  intros w e w'. unfold load. destruct (heap w !! l); intros [= <- <-]. exact Q_dangling.
Qed.

Lemma raises_total {A} (m : M A) :
  (∀ w, ∃ a w', m w = (Ok a, w')) → raises_only Q m.
Proof. intros Hm w e w' Hr. destruct (Hm w) as (a & w1 & Ha). congruence. Qed.

Ltac raises_step :=
  lazymatch goal with
  | |- raises_only _ (_ ≫= _) => apply raises_bind; [|intros ?]
  | |- raises_only _ (for_each _ _ _) => apply raises_for_each; intros ? ?
  | |- raises_only _ (if _ then _ else _) => apply raises_if
  | |- raises_only _ (getitem _ _) => apply raises_getitem
  | |- raises_only _ (load _) => apply raises_load
  | |- raises_only _ (mret _) => apply raises_ret
  | |- raises_only _ (raise _) => apply raises_raise
  | |- raises_only _ get_self => apply raises_total; intros ?; do 2 eexists; reflexivity
  | |- raises_only _ (modify_self _) => apply raises_total; intros ?; do 2 eexists; reflexivity
  | |- raises_only _ (emit _) => apply raises_total; intros ?; do 2 eexists; reflexivity
  | |- raises_only _ (store _ _) => apply raises_total; intros ?; do 2 eexists; reflexivity
  | |- raises_only _ (match ?e with _ => _ end) => destruct e
  | |- _ => idtac
  end.

Ltac raises_auto := repeat (progress raises_step); auto.

Lemma mark_blocks_for_deletion_raises purge_list :
  raises_only Q (mark_blocks_for_deletion purge_list).
Proof using Q_index Q_dangling.
  induction purge_list as [|index rest IH]; simpl; raises_auto.
Qed.

Lemma sub_content_of_blocks_raises : raises_only Q sub_content_of_blocks.
Proof using Q_dangling. unfold sub_content_of_blocks. raises_auto. Qed.

Lemma call_detect_langs_raises text : raises_only Q (call_detect_langs text).
Proof using Q_detect. unfold call_detect_langs. raises_auto. Qed.

Lemma language_is_correct_raises : raises_only Q language_is_correct.
Proof using Q_index Q_dangling Q_detect.
  unfold language_is_correct, call_get_2letter_code. raises_auto.
  - apply sub_content_of_blocks_raises.
  - apply call_detect_langs_raises.
Qed.

Lemma determine_from_suffixes_raises sufs :
  raises_only Q (determine_from_suffixes sufs).
Proof.
  induction sufs as [|suffix rest IH]; simpl; unfold call_is_language; raises_auto.
Qed.

Lemma determine_language_raises : raises_only Q determine_language.
Proof using Q_index Q_dangling Q_detect.
  unfold determine_language. raises_auto.
  - apply determine_from_suffixes_raises.
  - apply sub_content_of_blocks_raises.
  - apply call_detect_langs_raises.
Qed.

Lemma init_tail_raises : raises_only Q init_tail.
Proof using Q_index Q_dangling Q_detect.
  unfold init_tail. raises_auto.
  - apply determine_language_raises.
  - apply language_is_correct_raises.
  - apply mark_blocks_for_deletion_raises.
Qed.

End Raises.

Section ContentCheck.
Context {E : Env} {S : Settings}.

(** C5: when the file has been read and segmentation has ended with no
    block with content, [__init__] raises [SubtitleContentException] with
    the path of the file; when some block has content, [__init__] does not
    raise that exception. *)
Theorem content_exception subtitle_file w0 file_content w1 w2 :
  read_file subtitle_file (blank subtitle_file w0) = (Ok file_content, w1) →
  _parse_file_content file_content w1 = (Ok tt, w2) →
  (has_content w2 = false →
   __init__ subtitle_file w0
   = (Raise (SubtitleContentException subtitle_file), set_short_path subtitle_file w2)) ∧
  (has_content w2 = true →
   ∀ f w3, __init__ subtitle_file w0 ≠ (Raise (SubtitleContentException f), w3)).
Proof.
  intros Hread Hparse.
  pose proof (parsed_blocks_ok _ _ _ _ _ _ Hread Hparse) as Hok.
  rewrite init_run, Hread, Hparse, (bool_run _ Hok).
  change (has_content (set_short_path subtitle_file w2)) with (has_content w2).
  split; intros Hc; rewrite Hc; [reflexivity|].
  intros f w3 Hraise.
  apply (init_tail_raises (λ e, ∀ f, e ≠ SubtitleContentException f)) in Hraise;
    try (intros ?; discriminate).
  exact (Hraise f eq_refl).
Qed.

Lemma range_empty a b : b ≤ a → range a b = [].
Proof. intros Hle. unfold range. replace (Z.to_nat (b - a)) with 0%nat by lia. reflexivity. Qed.

Lemma breakup_block_short raw w :
  (length raw < 3)%nat → _breakup_block raw w = (Ok tt, w).
Proof.
  intros Hlen. unfold _breakup_block. rewrite range_empty by (unfold len; lia).
  reflexivity.
Qed.

(** C10: when the normalized text of the file splits into fewer than three
    lines, segmentation ends without a block, whatever the lines hold, and
    [__init__] raises [SubtitleContentException] for the file. *)
Theorem fewer_than_three_lines subtitle_file w0 file_content w1 :
  read_file subtitle_file (blank subtitle_file w0) = (Ok file_content, w1) →
  (length (split chr_newline
             (replace chr_em_dash (lit "--") (re_sub_blank_lines file_content))) < 3)%nat →
  _parse_file_content file_content w1 = (Ok tt, w1) ∧
  blocks (self w1) = [] ∧
  ∃ w3, __init__ subtitle_file w0 = (Raise (SubtitleContentException subtitle_file), w3) ∧
        blocks (self w3) = [].
Proof.
  intros Hread Hlen.
  assert (Hparse : _parse_file_content file_content w1 = (Ok tt, w1)).
  { unfold _parse_file_content. apply breakup_block_short, Hlen. }
  pose proof (read_file_state _ _ _ _ Hread) as ->.
  split; [exact Hparse|]. split; [reflexivity|].
  exists (set_short_path subtitle_file (blank subtitle_file w0)).
  split; [|reflexivity].
  rewrite init_run, Hread, Hparse, bool_run; [reflexivity|].
  apply blocks_fresh_ok, (blocks_fresh_blank subtitle_file w0).
Qed.

End ContentCheck.

(** ** Language from the file name *)

Section FilenameLanguage.
Context {E : Env} {S : Settings}.

Lemma slice_candidates {A} (l : list A) :
  py_slice l (-3) (-1) = drop (length l - 3) (take (length l - 1) l).
Proof.
  unfold py_slice, slice_bound.
  change (-3 <? 0) with true. change (-1 <? 0) with true. cbv iota.
  replace (length l - 1)%nat
    with ((length l - 3) + ((length l - 1) - (length l - 3)))%nat by lia.
  rewrite <- take_drop_commute. f_equal; [|f_equal]; lia.
Qed.

Lemma candidate_suffixes_slice p :
  py_slice (suffixes p) (-3) (-1) = candidate_suffixes p.
Proof. apply slice_candidates. Qed.

Lemma candidate_suffixes_length p : (length (candidate_suffixes p) ≤ 2)%nat.
Proof.
  unfold candidate_suffixes. rewrite length_drop, length_take. lia.
Qed.

Lemma split_head_cons c x s :
  N.eqb x c = false →
  default [] (head (split c (x :: s))) = x :: default [] (head (split c s)).
Proof.
  intros Hx. simpl. rewrite Hx. destruct (split c s) as [|w ws] eqn:Es.
  - destruct s; simpl in Es; [discriminate|].
    destruct (N.eqb n c); [discriminate|]. destruct (split c s); discriminate.
  - reflexivity.
Qed.

Lemma replace_cons_ne c r x s :
  N.eqb x c = false → replace c r (x :: s) = x :: replace c r s.
Proof. intros Hx. unfold replace. simpl. rewrite Hx. reflexivity. Qed.

(** On a suffix, which starts with the dot, the source's order of the
    steps and the specification's give the same token. *)
Lemma parsed_lang_of_dot rest :
  parsed_lang_of (chr_dot :: rest) = suffix_token_spec (chr_dot :: rest).
Proof.
  unfold parsed_lang_of, suffix_token_spec.
  rewrite !replace_cons_ne by reflexivity.
  rewrite split_head_cons by reflexivity. reflexivity.
Qed.

Lemma suffixes_dot p suffix :
  suffix ∈ suffixes p → ∃ rest, suffix = chr_dot :: rest.
Proof.
  unfold suffixes. destruct (endswith_char chr_dot (name p)).
  - intros Hin. inversion Hin.
  - intros Hin. apply list_elem_of_fmap in Hin as (rest & -> & _). eauto.
Qed.

Lemma candidate_tokens p :
  parsed_lang_of <$> candidate_suffixes p = suffix_token_spec <$> candidate_suffixes p.
Proof.
  apply list_fmap_ext. intros i suffix Hi.
  assert (Hin : suffix ∈ candidate_suffixes p) by (eapply list_elem_of_lookup_2, Hi).
  assert (Hs : suffix ∈ suffixes p).
  { unfold candidate_suffixes in Hin.
    eapply (subseteq_take (length (suffixes p) - 1)), (subseteq_drop (length (suffixes p) - 3)), Hin. }
  destruct (suffixes_dot p suffix Hs) as [rest ->]. apply parsed_lang_of_dot.
Qed.

Lemma determine_from_suffixes_run sufs w :
  determine_from_suffixes sufs w =
  let tokens := parsed_lang_of <$> sufs in
  let t' := trace w ++ (EvIsLanguage <$> probed tokens) in
  match List.find is_language tokens with
  | Some t => (Ok true, mkWorld _ (heap w) (next_loc w) (with_language t (self w)) t')
  | None => (Ok false, mkWorld _ (heap w) (next_loc w) (self w) t')
  end.
Proof.
  revert w. induction sufs as [|suffix rest IH]; intros w.
  - simpl. rewrite app_nil_r. destruct w; reflexivity.
  - rewrite fmap_cons. cbv zeta. simpl List.find. simpl probed.
    simpl determine_from_suffixes. rewrite call_is_language_run.
    destruct (is_language (parsed_lang_of suffix)) eqn:Hk.
    + reflexivity.
    + rewrite IH. simpl. rewrite <- app_assoc. reflexivity.
Qed.

Lemma determine_language_by_suffix w t :
  truthy_opt config_default_language = false →
  List.find is_language (suffix_token_spec <$> candidate_suffixes (file (self w))) = Some t →
  determine_language w
  = (Ok tt,
     mkWorld _ (heap w) (next_loc w) (with_language t (self w))
       (trace w ++ (EvIsLanguage <$>
          probed (suffix_token_spec <$> candidate_suffixes (file (self w)))))).
Proof.
  intros Hdef Hfind. unfold determine_language. rewrite Hdef.
  rewrite run_bind. simpl. rewrite run_get_self. simpl.
  rewrite run_bind, determine_from_suffixes_run. simpl.
  rewrite candidate_suffixes_slice, candidate_tokens, Hfind. reflexivity.
Qed.

(** C9: with no default language, [determine_language] looks at the at most
    two suffixes before the last one, takes from each the token the
    specification describes, and adopts the first token the registry
    knows, asking the registry only and not the detector; so for
    [movie.en.srt] and a registry that knows [en] the language is [en]. *)
Theorem determine_language_from_filename (w : World) :
  truthy_opt config_default_language = false →
  let tokens := suffix_token_spec <$> candidate_suffixes (file (self w)) in
  (length tokens ≤ 2)%nat ∧
  (∀ t, List.find is_language tokens = Some t →
     ∃ w', determine_language w = (Ok tt, w') ∧
           language (self w') = t ∧
           trace w' = trace w ++ (EvIsLanguage <$> probed tokens)) ∧
  (name (file (self w)) = lit "movie.en.srt" →
   is_language (lit "en") = true →
   ∃ w', determine_language w = (Ok tt, w') ∧
         language (self w') = lit "en" ∧
         trace w' = trace w ++ [EvIsLanguage (lit "en")]).
Proof.
  intros Hdef tokens. split; [|split].
  - unfold tokens. rewrite length_fmap. apply candidate_suffixes_length.
  - intros t Hfind. eexists. split; [apply determine_language_by_suffix; eassumption|].
    split; reflexivity.
  - intros Hname Hen.
    assert (Htok : tokens = [lit "en"]).
    { unfold tokens, candidate_suffixes, suffixes. rewrite Hname. reflexivity. }
    assert (Hfind : List.find is_language tokens = Some (lit "en")).
    { rewrite Htok. simpl. rewrite Hen. reflexivity. }
    eexists. split; [apply determine_language_by_suffix; eassumption|].
    split; [reflexivity|]. simpl. fold tokens. rewrite Htok. simpl.
    rewrite Hen. reflexivity.
Qed.

End FilenameLanguage.

(** ** The language override *)

Section Override.
Context {E : Env} {S : Settings}.

Lemma mark_blocks_for_deletion_self_trace purge_list w r w' :
  mark_blocks_for_deletion purge_list w = (r, w') → same_self_trace w w'.
Proof.
  intros Hrun.
  apply (mark_blocks_for_deletion_frame same_self_trace (same_self_trace w))
    with (w := w) (r := r) (purge_list := purge_list).
  - intros w1 w2 [Hs Ht] [Hs' Ht']. split; congruence.
  - intros; split; reflexivity.
  - exact Hrun.
  - split; reflexivity.
Qed.

Lemma parse_file_content_trace file_content w r w' :
  _parse_file_content file_content w = (r, w') → trace w' = trace w.
Proof.
  intros Hrun.
  apply (parse_file_content_frame same_trace (same_trace w))
    with (w := w) (r := r) (file_content := file_content).
  - intros w1 w2 Ht Ht'. unfold same_trace in *. congruence.
  - intros; reflexivity.
  - intros; reflexivity.
  - exact Hrun.
  - reflexivity.
Qed.

Lemma language_is_correct_trace w r w' :
  blocks_ok w →
  language_is_correct w = (r, w') →
  self w' = self w ∧ heap w' = heap w ∧
  trace w' = trace w ++ validation_events (language (self w)) (doc_content w).
Proof.
  intros Hok. rewrite (language_is_correct_run w Hok). cbv zeta.
  unfold validation_events.
  case_bool_decide; [intros [= <- <-]; rewrite app_nil_r; auto|].
  destruct (negb _); [intros [= <- <-]; auto|].
  destruct (_ <? _); [intros [= <- <-]; auto|].
  intros [= <- <-]. simpl. rewrite <- app_assoc. auto.
Qed.

(** The rest of [__init__] under a non-empty override. *)
Lemma init_tail_override l w3 w :
  args_language = Some l → l ≠ [] →
  blocks_ok w3 →
  init_tail w3 = (Ok tt, w) →
  ∃ correct,
    fst (language_is_correct (with_self (with_language l (self w3)) w3)) = Ok correct ∧
    self w = with_language l (self w3) ∧
    trace w = trace w3 ++ validation_events l (doc_content w3)
              ++ (if correct then [] else [EvLogWarning (mismatch_message l)]).
Proof.
  intros Hl Hne Hok. unfold init_tail. rewrite Hl.
  assert (Ht : truthy l = true) by (destruct l; [contradiction|reflexivity]).
  simpl truthy_opt. rewrite Ht. simpl default.
  rewrite run_bind. simpl modify_self.
  set (w4 := with_self (with_language l (self w3)) w3).
  change (modify_self (with_language l) w3) with ((Ok tt, w4) : result unit * World).
  cbv iota beta. rewrite run_bind.
  assert (Hok4 : blocks_ok w4) by exact Hok.
  destruct (language_is_correct w4) as [[correct|e] w5] eqn:Hcorrect; [|discriminate].
  destruct (language_is_correct_trace _ _ _ Hok4 Hcorrect) as (Hs5 & _ & Ht5).
  rewrite run_bind.
  destruct correct.
  - unfold negb. cbv iota. rewrite run_ret. cbv iota beta.
    destruct (truthy_list args_destroy_list).
    + intros Hmark. apply mark_blocks_for_deletion_self_trace in Hmark as [Hs Htr].
      exists true. rewrite Hs, Htr, Hs5, Ht5, app_nil_r. auto.
    + intros [= <-]. exists true. rewrite Hs5, Ht5, app_nil_r. auto.
  - unfold negb. cbv iota. rewrite run_get_self. unfold emit at 1. cbv iota beta.
    destruct (truthy_list args_destroy_list).
    + intros Hmark. apply mark_blocks_for_deletion_self_trace in Hmark as [Hs Htr].
      exists false. rewrite Hs, Htr. simpl. rewrite Hs5, Ht5, <- app_assoc. auto.
    + intros [= <-]. exists false. simpl. rewrite Hs5, Ht5, <- app_assoc. auto.
Qed.

(** C6, amended: when a non-empty language override is supplied, the
    constructed document carries the override as its language, whatever the
    file name, the content, the default language, the registry and the
    detector are; and the only calls out of the module during construction
    are those that validate the override (the 2-letter code of the
    override, then at most one detection, then the warning): the registry
    is never asked whether a token is a language. *)
Theorem override_language subtitle_file w0 w l :
  args_language = Some l → l ≠ [] →
  __init__ subtitle_file w0 = (Ok tt, w) →
  language (self w) = l ∧
  ∃ sub_content correct,
    trace w = trace w0 ++ validation_events l sub_content
              ++ (if correct : bool then [] else [EvLogWarning (mismatch_message l)]).
Proof.
  intros Hl Hne. rewrite init_run.
  destruct (read_file subtitle_file (blank subtitle_file w0)) as [[fc|e] w1] eqn:Hread;
    [|discriminate].
  destruct (_parse_file_content fc w1) as [[[]|e] w2] eqn:Hparse; [|discriminate].
  pose proof (parsed_blocks_ok _ _ _ _ _ _ Hread Hparse) as Hok.
  rewrite (bool_run _ Hok).
  destruct (has_content (set_short_path subtitle_file w2)); [|discriminate].
  intros Htail.
  destruct (init_tail_override l _ _ Hl Hne Hok Htail) as (correct & _ & Hself & Htrace).
  split; [rewrite Hself; reflexivity|].
  exists (doc_content (set_short_path subtitle_file w2)), correct.
  rewrite Htrace. f_equal. simpl.
  rewrite (parse_file_content_trace _ _ _ _ Hparse).
  apply read_file_state in Hread. subst w1. reflexivity.
Qed.

End Override.

(** ** The boundary scan on a well-formed cue file *)

Section Scan.
Context {E : Env} {S : Settings}.

Lemma py_index_nat {A} (l : list A) (i : nat) : py_index l (Z.of_nat i) = l !! i.
Proof.
  unfold py_index. destruct (Z.ltb_spec (Z.of_nat i) 0) as [Hneg|_]; [lia|].
  destruct (Z.leb_spec 0 (Z.of_nat i)) as [_|Hpos]; [|lia].
  destruct (Z.ltb_spec (Z.of_nat i) (Z.of_nat (length l))) as [Hlt|Hge]; simpl.
  - rewrite Nat2Z.id. reflexivity.
  - symmetry. apply lookup_ge_None. lia.
Qed.

Lemma py_slice_nat {A} (l : list A) (a b : nat) :
  (a ≤ b ≤ length l)%nat →
  py_slice l (Z.of_nat a) (Z.of_nat b) = take (b - a) (drop a l).
Proof.
  intros Hab. unfold py_slice, slice_bound.
  destruct (Z.ltb_spec (Z.of_nat a) 0) as [Ha|_]; [lia|].
  destruct (Z.ltb_spec (Z.of_nat b) 0) as [Hb|_]; [lia|].
  f_equal; [|f_equal]; lia.
Qed.

Lemma startswith_arrow_hyphen s : startswith arrow s = true → chr_hyphen ∈ s.
Proof.
  destruct s as [|c s]; [discriminate|].
  change (startswith arrow (c :: s))
    with (N.eqb chr_hyphen c && startswith [chr_hyphen; 62%N] s).
  intros Hs. apply andb_true_iff in Hs as [Hc _].
  apply N.eqb_eq in Hc. subst c. left.
Qed.

Lemma contains_arrow_hyphen s : contains arrow s = true → chr_hyphen ∈ s.
Proof.
  induction s as [|c s IH].
  - simpl. discriminate.
  - intros Hc. change (contains arrow (c :: s))
      with (startswith arrow (c :: s) || contains arrow s) in Hc.
    apply orb_true_iff in Hc as [Hs|Hc].
    + apply startswith_arrow_hyphen, Hs.
    + right. apply IH, Hc.
Qed.

(** A numeric line holds no arrow, the hyphen not being numeric. *)
Lemma isnumeric_no_arrow s :
  uc_numeric chr_hyphen = false → isnumeric s = true → contains arrow s = false.
Proof.
  intros Hh Hn. destruct (contains arrow s) eqn:Hc; [|reflexivity].
  apply contains_arrow_hyphen in Hc.
  unfold isnumeric in Hn. apply andb_true_iff in Hn as [_ Hall].
  rewrite forallb_forall in Hall. apply list_elem_of_In in Hc.
  rewrite (Hall _ Hc) in Hh. discriminate.
Qed.

Lemma breakup_step_quiet raw last_break i w :
  (1 ≤ i < length raw)%nat → boundary raw i = false →
  breakup_step raw last_break (Z.of_nat i) w = (Ok last_break, w).
Proof.
  intros Hi Hb. rewrite breakup_step_run.
  replace (Z.of_nat i - 1) with (Z.of_nat (i - 1)) by lia.
  rewrite !py_index_nat. unfold boundary in Hb.
  destruct (lookup_lt_is_Some_2 raw i) as [line Hline]; [lia|].
  destruct (lookup_lt_is_Some_2 raw (i - 1)) as [prev Hprev]; [lia|].
  rewrite Hline, Hprev in *.
  destruct (contains arrow line); [|reflexivity].
  simpl in Hb. rewrite Hb. reflexivity.
Qed.

Lemma breakup_step_boundary raw last_break i w line prev b :
  (1 ≤ i)%nat → (last_break ≤ i - 1)%nat → (i - 1 ≤ length raw)%nat →
  raw !! i = Some line → raw !! (i - 1)%nat = Some prev →
  contains arrow line = true → isnumeric prev = true →
  SubBlock_init (join [chr_newline] (take (i - 1 - last_break) (drop last_break raw)))
  = inr b →
  breakup_step raw (Z.of_nat last_break) (Z.of_nat i) w
  = (Ok (Z.of_nat (i - 1)), emitted b w).
Proof.
  intros Hi Hlb Hlen Hline Hprev Harrow Hnum Hb. rewrite breakup_step_run.
  replace (Z.of_nat i - 1) with (Z.of_nat (i - 1)) by lia.
  rewrite !py_index_nat, Hline, Hprev, Harrow, Hnum.
  rewrite py_slice_nat by lia. rewrite Hb. reflexivity.
Qed.

Lemma range_indices (a b : nat) :
  range (Z.of_nat a) (Z.of_nat b) = indices a (b - a).
Proof.
  unfold range, indices. replace (Z.to_nat (Z.of_nat b - Z.of_nat a)) with (b - a)%nat by lia.
  apply list_fmap_ext. intros _ i _. lia.
Qed.

Lemma indices_S a n : indices a (Datatypes.S n) = Z.of_nat a :: indices (Datatypes.S a) n.
Proof.
  unfold indices. simpl. f_equal; [f_equal; lia|].
  rewrite <- fmap_S_seq, <- list_fmap_compose.
  apply list_fmap_ext. intros _ i _. simpl. f_equal. lia.
Qed.

Lemma indices_app a n m : indices a (n + m) = indices a n ++ indices (a + n) m.
Proof.
  revert a. induction n as [|n IH]; intros a.
  - simpl. rewrite Nat.add_0_r. reflexivity.
  - change (Datatypes.S n + m)%nat with (Datatypes.S (n + m)).
    rewrite !indices_S, IH.
    replace (Datatypes.S a + n)%nat with (a + Datatypes.S n)%nat by lia. reflexivity.
Qed.

Lemma for_each_app {A B} (body : B → A → M B) xs ys acc w :
  for_each body (xs ++ ys) acc w = (for_each body xs acc ≫= for_each body ys) w.
Proof.
  revert acc w. induction xs as [|x xs IH]; intros acc w.
  - reflexivity.
  - simpl. rewrite !run_bind. destruct (body acc x w) as [[acc'|e] w1]; [|reflexivity].
    rewrite IH. reflexivity.
Qed.

End Scan.

Section CueFile.
Context {E : Env} {S : Settings}.

Lemma lookup_second {A} (before : list A) x y rest :
  (before ++ x :: y :: rest) !! (length before + 1)%nat = Some y.
Proof.
  replace (before ++ x :: y :: rest) with ((before ++ [x]) ++ y :: rest)
    by (rewrite <- app_assoc; reflexivity).
  apply list_lookup_middle. rewrite length_app. reflexivity.
Qed.

Lemma scan_quiet seg : ∀ before x after last_break w,
  no_inner_boundary (x :: seg) = true →
  for_each (breakup_step (before ++ x :: seg ++ after))
    (indices (length before + 1) (length seg)) last_break w
  = (Ok last_break, w).
Proof.
  induction seg as [|y seg IH]; intros before x after lb w Hq.
  - reflexivity.
  - simpl length. rewrite indices_S, for_each_cons.
    change (no_inner_boundary (x :: y :: seg))
      with (negb (contains arrow y && isnumeric x) && no_inner_boundary (y :: seg)) in Hq.
    apply andb_true_iff in Hq as [Hxy Hrest]. apply negb_true_iff in Hxy.
    rewrite (run_bind_ok _ _ _ lb w).
    + replace (before ++ x :: (y :: seg) ++ after)
        with ((before ++ [x]) ++ y :: seg ++ after)
        by (rewrite <- app_assoc; reflexivity).
      replace (Datatypes.S (length before + 1)) with (length (before ++ [x]) + 1)%nat
        by (rewrite length_app; simpl; lia).
      apply IH, Hrest.
    + apply breakup_step_quiet.
      * rewrite length_app. simpl. lia.
      * unfold boundary. simpl app. rewrite lookup_second.
        replace (length before + 1 - 1)%nat with (length before) by lia.
        rewrite list_lookup_middle by reflexivity. exact Hxy.
Qed.

Lemma arrow_free_quiet t : ∀ x, arrow_free t = true → no_inner_boundary (x :: t) = true.
Proof.
  induction t as [|y t IH]; intros x Hf; [reflexivity|].
  simpl in Hf. apply andb_true_iff in Hf as [Hy Ht].
  change (no_inner_boundary (x :: y :: t))
    with (negb (contains arrow y && isnumeric x) && no_inner_boundary (y :: t)).
  apply negb_true_iff in Hy. rewrite Hy. simpl. apply IH, Ht.
Qed.

Lemma no_inner_boundary_app l : ∀ x t,
  no_inner_boundary (x :: l) = true → arrow_free t = true →
  no_inner_boundary (x :: l ++ t) = true.
Proof.
  induction l as [|y l IH]; intros x t Hl Ht.
  - apply arrow_free_quiet, Ht.
  - change (no_inner_boundary (x :: y :: l))
      with (negb (contains arrow y && isnumeric x) && no_inner_boundary (y :: l)) in Hl.
    apply andb_true_iff in Hl as [Hxy Hrest].
    change (no_inner_boundary (x :: (y :: l) ++ t))
      with (negb (contains arrow y && isnumeric x) && no_inner_boundary (y :: l ++ t)).
    rewrite Hxy. simpl. apply IH; assumption.
Qed.

(** Inside a well-formed cue nothing after the time-range line starts a
    block. *)
Lemma wf_cue_quiet c :
  uc_numeric chr_hyphen = false → wf_cue c = true →
  isnumeric (number c) = true ∧ contains arrow (timing c) = true ∧
  contains arrow (number c) = false ∧
  no_inner_boundary (timing c :: text c) = true.
Proof.
  intros Hh Hwf. unfold wf_cue in Hwf.
  apply andb_true_iff in Hwf as [Hwf Htext]. apply andb_true_iff in Hwf as [Hnum Harrow].
  repeat split; auto.
  - apply isnumeric_no_arrow; assumption.
  - destruct (text c) as [|t ts]; [reflexivity|].
    change (no_inner_boundary (timing c :: t :: ts))
      with (negb (contains arrow t && isnumeric (timing c)) && no_inner_boundary (t :: ts)).
    rewrite Htext, andb_true_r. apply negb_true_iff.
    destruct (isnumeric (timing c)) eqn:Ht; [|apply andb_false_r].
    rewrite (isnumeric_no_arrow _ Hh Ht) in Harrow. discriminate.
Qed.

Lemma scan_cues cues : ∀ pre prev tail w bs,
  uc_numeric chr_hyphen = false →
  wf_cue prev = true → forallb wf_cue cues = true → arrow_free tail = true →
  Forall2 built (removelast (prev :: cues)) bs →
  ∃ last_break,
    for_each
      (breakup_step (pre ++ cue_lines prev ++ concat (cue_lines <$> cues) ++ tail))
      (indices (length pre + 2)
         (length (text prev ++ concat (cue_lines <$> cues) ++ tail)))
      (Z.of_nat (length pre)) w
    = (Ok last_break, emit_all bs w).
Proof.
  induction cues as [|c cues IH]; intros pre prev tail w bs Hh Hprev Hcues Htail Hbs.
  - simpl in Hbs. inversion Hbs; subst. simpl concat. simpl app at 3.
    destruct (wf_cue_quiet prev Hh Hprev) as (_ & _ & _ & Hq).
    exists (Z.of_nat (length pre)).
    replace (pre ++ cue_lines prev ++ tail)
      with ((pre ++ [number prev]) ++ timing prev :: (text prev ++ tail) ++ [])
      by (unfold cue_lines; rewrite app_nil_r, <- app_assoc; reflexivity).
    replace (length pre + 2)%nat with (length (pre ++ [number prev]) + 1)%nat
      by (rewrite length_app; simpl; lia).
    apply scan_quiet, no_inner_boundary_app; assumption.
  - change (removelast (prev :: c :: cues)) with (prev :: removelast (c :: cues)) in Hbs.
    inversion Hbs as [|? b ? bs' Hb Hbs']; subst.
    simpl in Hcues. apply andb_true_iff in Hcues as [Hc Hcues].
    destruct (wf_cue_quiet prev Hh Hprev) as (_ & _ & _ & Hq).
    destruct (wf_cue_quiet c Hh Hc) as (Hnum & Harrow & Hnoarrow & _).
    destruct (IH (pre ++ cue_lines prev) c tail (emitted b w) bs' Hh Hc Hcues Htail Hbs')
      as [lb Hrest].
    exists lb.
    set (raw := pre ++ cue_lines prev ++ concat (cue_lines <$> c :: cues) ++ tail).
    assert (Hraw1 : raw = (pre ++ [number prev]) ++ timing prev
                            :: (text prev ++ [number c])
                            ++ (timing c :: text c ++ concat (cue_lines <$> cues) ++ tail)).
    { unfold raw, cue_lines. simpl. rewrite <- !app_assoc. reflexivity. }
    assert (Hraw2 : raw = (pre ++ cue_lines prev) ++ cue_lines c
                            ++ concat (cue_lines <$> cues) ++ tail).
    { unfold raw. simpl. rewrite <- !app_assoc. reflexivity. }
    set (q := length (pre ++ cue_lines prev)).
    replace (length (text prev ++ concat (cue_lines <$> c :: cues) ++ tail))
      with (length (text prev ++ [number c])
            + Datatypes.S (length (text c ++ concat (cue_lines <$> cues) ++ tail)))%nat
      by (rewrite fmap_cons, concat_cons, !length_app;
          change (length (cue_lines c)) with (Datatypes.S (Datatypes.S (length (text c))));
          simpl length; lia).
    rewrite indices_app, for_each_app.
    rewrite (run_bind_ok _ _ _ (Z.of_nat (length pre)) w).
    2: { rewrite Hraw1.
         replace (length pre + 2)%nat with (length (pre ++ [number prev]) + 1)%nat
           by (rewrite length_app; simpl; lia).
         apply scan_quiet.
         apply no_inner_boundary_app; [exact Hq|].
         simpl. rewrite Hnoarrow. reflexivity. }
    replace (length pre + 2 + length (text prev ++ [number c]))%nat
      with (q + 1)%nat
      by (unfold q, cue_lines; rewrite !length_app; simpl; lia).
    rewrite indices_S, for_each_cons.
    rewrite (run_bind_ok _ _ _ (Z.of_nat q) (emitted b w)).
    + rewrite Hraw2.
      replace (Datatypes.S (q + 1)) with (length (pre ++ cue_lines prev) + 2)%nat
        by (unfold q; lia).
      exact Hrest.
    + replace (Z.of_nat q) with (Z.of_nat (q + 1 - 1)) by lia.
      apply (breakup_step_boundary raw (length pre) (q + 1) w (timing c) (number c) b).
      * lia.
      * unfold q. rewrite length_app. lia.
      * rewrite Hraw2, length_app. fold q. lia.
      * rewrite Hraw2. unfold cue_lines at 2. fold q.
        apply (lookup_second (pre ++ cue_lines prev)).
      * rewrite Hraw2. replace (q + 1 - 1)%nat with q by lia.
        unfold cue_lines at 2. apply list_lookup_middle. reflexivity.
      * exact Harrow.
      * exact Hnum.
      * replace (q + 1 - 1 - length pre)%nat with (length (cue_lines prev))
          by (unfold q; rewrite length_app; lia).
        unfold raw. rewrite drop_app_length, take_app_length. exact Hb.
Qed.

End CueFile.

Section FinalCue.
Context {E : Env} {S : Settings}.

Lemma emit_all_spec bs : ∀ w,
  Forall (λ b, truthy (content b) = true) bs →
  blocks (self (emit_all bs w)) = blocks (self w) ++ seq (next_loc w) (length bs) ∧
  (∀ l, (l < next_loc w)%nat → heap (emit_all bs w) !! l = heap w !! l) ∧
  (∀ k b, bs !! k = Some b → heap (emit_all bs w) !! (next_loc w + k)%nat = Some b).
Proof.
  induction bs as [|b bs IH]; intros w Hall.
  - simpl. rewrite app_nil_r. repeat split; auto. intros k b Hk. discriminate.
  - apply Forall_cons in Hall as [Hb Hall].
    destruct (IH (emitted b w) Hall) as (Hblocks & Hold & Hnew).
    assert (Hn : next_loc (emitted b w) = Datatypes.S (next_loc w)) by reflexivity.
    assert (Hbl : blocks (self (emitted b w)) = blocks (self w) ++ [next_loc w])
      by (unfold emitted; simpl; rewrite Hb; reflexivity).
    assert (Hh : heap (emitted b w) = <[next_loc w := b]> (heap w)) by reflexivity.
    rewrite Hn, Hbl in Hblocks. rewrite Hn, Hh in Hold. rewrite Hn in Hnew.
    simpl emit_all.
    split; [|split].
    + rewrite Hblocks, <- app_assoc. reflexivity.
    + intros l Hl. rewrite Hold by lia. apply lookup_insert_ne. lia.
    + intros [|k] b' Hk; simpl in Hk.
      * injection Hk as <-. rewrite Nat.add_0_r, Hold by lia.
        apply lookup_insert_eq.
      * replace (next_loc w + Datatypes.S k)%nat with (Datatypes.S (next_loc w + k)) by lia.
        apply Hnew, Hk.
Qed.

Lemma accepted_built cs :
  forallb cue_accepted cs = true →
  ∃ bs, Forall2 built cs bs ∧
        Forall (λ b, truthy (content b) = true) bs ∧
        block_of_cue <$> cs = Some <$> bs.
Proof.
  induction cs as [|c cs IH]; intros Hacc.
  - exists []. repeat split; constructor.
  - simpl in Hacc. apply andb_true_iff in Hacc as [Hc Hcs].
    destruct (IH Hcs) as (bs & Hbuilt & Htruthy & Hobj).
    unfold cue_accepted in Hc.
    destruct (SubBlock_init (join [chr_newline] (cue_lines c))) as [d|b] eqn:Hb;
      [discriminate|].
    exists (b :: bs). repeat split.
    + constructor; assumption.
    + constructor; assumption.
    + rewrite !fmap_cons, Hobj. unfold block_of_cue. rewrite Hb. reflexivity.
Qed.

Lemma length_removelast {A} (l : list A) : length (removelast l) = (length l - 1)%nat.
Proof.
  induction l as [|x [|y l] IH]; [reflexivity..|].
  change (removelast (x :: y :: l)) with (x :: removelast (y :: l)).
  simpl length in *. lia.
Qed.

(** C1: on the lines of [N] well-formed cues that follow one another, with
    nothing (or the empty line a final newline leaves) after the last one,
    [_breakup_block] ends with exactly [N - 1] blocks: those the block class
    builds from the first [N - 1] cues, in order; the last cue gives no
    block. The block class is taken to accept every cue but the last and to
    find text in it. *)
Theorem final_cue_dropped (cues : list Cue) (tail : list str) (w : World) :
  uc_numeric chr_hyphen = false →
  forallb wf_cue cues = true →
  forallb cue_accepted (removelast cues) = true →
  tail = [] ∨ tail = [[]] →
  blocks (self w) = [] →
  ∃ w', _breakup_block (concat (cue_lines <$> cues) ++ tail) w = (Ok tt, w') ∧
        length (blocks (self w')) = (length cues - 1)%nat ∧
        block_objects w' = block_of_cue <$> removelast cues.
Proof.
  intros Hh Hwf Hacc Htail Hblank.
  assert (Hfree : arrow_free tail = true) by (destruct Htail as [-> | ->]; reflexivity).
  destruct cues as [|c cues].
  - exists w. split; [|split].
    + apply breakup_block_short. destruct Htail as [-> | ->]; simpl; lia.
    + rewrite Hblank. reflexivity.
    + unfold block_objects. rewrite Hblank. reflexivity.
  - destruct (accepted_built _ Hacc) as (bs & Hbuilt & Htruthy & Hobj).
    simpl in Hwf. apply andb_true_iff in Hwf as [Hc Hwf].
    destruct (scan_cues cues [] c tail w bs Hh Hc Hwf Hfree Hbuilt) as [lb Hscan].
    destruct (emit_all_spec bs w Htruthy) as (Hblocks & _ & Hnew).
    exists (emit_all bs w). split; [|split].
    + unfold _breakup_block. rewrite run_bind.
      change 2 with (Z.of_nat 2). unfold len. rewrite range_indices.
      rewrite fmap_cons, concat_cons, <- app_assoc.
      replace (length (cue_lines c ++ concat (cue_lines <$> cues) ++ tail) - 2)%nat
        with (length (text c ++ concat (cue_lines <$> cues) ++ tail))
        by (unfold cue_lines; simpl; lia).
      change 0 with (Z.of_nat (length (@nil str))).
      change (cue_lines c ++ concat (cue_lines <$> cues) ++ tail)
        with ([] ++ cue_lines c ++ concat (cue_lines <$> cues) ++ tail).
      change 2%nat with (length (@nil str) + 2)%nat.
      rewrite Hscan. reflexivity.
    + rewrite Hblocks, Hblank, length_app, length_seq.
      rewrite <- (Forall2_length _ _ _ Hbuilt), length_removelast. reflexivity.
    + unfold block_objects. rewrite Hblocks, Hblank. simpl app.
      rewrite Hobj. apply list_eq. intros k.
      rewrite !list_lookup_fmap. destruct (bs !! k) as [b|] eqn:Hk; simpl.
      * rewrite lookup_seq_lt by (eapply lookup_lt_Some, Hk). simpl.
        f_equal. apply Hnew, Hk.
      * rewrite lookup_seq_ge by (apply lookup_ge_None, Hk). reflexivity.
Qed.

End FinalCue.

(** ** Forced deletion by position *)

Section MarkForDeletion.
Context {E : Env} {S : Settings}.

Lemma mark_one_run index w :
  mark_blocks_for_deletion [index] w =
  if len (blocks (self w)) <=? index - 1 then (Ok tt, w) else
  match py_index (blocks (self w)) (index - 1) with
  | None => (Raise IndexError, w)
  | Some l =>
      match heap w !! l with
      | Some b => (Ok tt, with_heap (<[l := set_regex_matches 3 b]> (heap w)) w)
      | None => (Raise DanglingReference, w)
      end
  end.
Proof.
  simpl. rewrite run_get_self, run_bind.
  destruct (len (blocks (self w)) <=? index - 1); [reflexivity|].
  unfold getitem. destruct (py_index (blocks (self w)) (index - 1)) as [l|]; [|reflexivity].
  rewrite run_bind, run_ret, run_bind. unfold load.
  destruct (heap w !! l) as [b|]; reflexivity.
Qed.

(** A position from 1 to the number of blocks: the block there gets the
    score 3, and nothing else changes. *)
Lemma mark_one_in_range index w l b :
  1 ≤ index → blocks (self w) !! Z.to_nat (index - 1) = Some l →
  heap w !! l = Some b →
  mark_blocks_for_deletion [index] w
  = (Ok tt, with_heap (<[l := set_regex_matches 3 b]> (heap w)) w).
Proof.
  intros Hpos Hl Hb. rewrite mark_one_run.
  pose proof (lookup_lt_Some _ _ _ Hl) as Hlt.
  destruct (Z.leb_spec (len (blocks (self w))) (index - 1)) as [Hle|_];
    [unfold len in Hle; lia|].
  replace (index - 1) with (Z.of_nat (Z.to_nat (index - 1))) at 1 by lia.
  rewrite py_index_nat, Hl, Hb. reflexivity.
Qed.

(** A position above the number of blocks: nothing happens. *)
Lemma mark_one_above index w :
  len (blocks (self w)) < index → mark_blocks_for_deletion [index] w = (Ok tt, w).
Proof.
  intros Hgt. rewrite mark_one_run.
  destruct (Z.leb_spec (len (blocks (self w))) (index - 1)); [reflexivity|lia].
Qed.

(** Position 0 is taken for the index [-1]: the last block gets the score. *)
Lemma mark_one_zero w l b :
  last (blocks (self w)) = Some l → heap w !! l = Some b →
  mark_blocks_for_deletion [0] w
  = (Ok tt, with_heap (<[l := set_regex_matches 3 b]> (heap w)) w).
Proof.
  intros Hlast Hb. rewrite mark_one_run.
  assert (Hlen : (0 < length (blocks (self w)))%nat).
  { destruct (blocks (self w)); [discriminate|simpl; lia]. }
  destruct (Z.leb_spec (len (blocks (self w))) (0 - 1)) as [Hle|_];
    [unfold len in Hle; lia|].
  unfold py_index. change (0 - 1 <? 0) with true. cbv iota.
  destruct (Z.leb_spec 0 (0 - 1 + Z.of_nat (length (blocks (self w))))); [|lia].
  destruct (Z.ltb_spec (0 - 1 + Z.of_nat (length (blocks (self w))))
              (Z.of_nat (length (blocks (self w))))); [|lia].
  simpl andb. cbv iota.
  rewrite last_lookup in Hlast.
  replace (Z.to_nat (0 - 1 + Z.of_nat (length (blocks (self w)))))
    with (pred (length (blocks (self w)))) by lia.
  rewrite Hlast, Hb. reflexivity.
Qed.

(** A position so far below 1 that the negative index leaves the list: an
    [IndexError]. *)
Lemma mark_one_below index w :
  index - 1 < - len (blocks (self w)) →
  mark_blocks_for_deletion [index] w = (Raise IndexError, w).
Proof.
  intros Hlow. rewrite mark_one_run. unfold len in *.
  destruct (Z.leb_spec (Z.of_nat (length (blocks (self w)))) (index - 1)); [lia|].
  unfold py_index.
  destruct (Z.ltb_spec (index - 1) 0); [|lia].
  destruct (Z.leb_spec 0 (index - 1 + Z.of_nat (length (blocks (self w))))); [lia|].
  reflexivity.
Qed.

End MarkForDeletion.

(** ** The properties on the sample documents *)

Section Samples.
#[local] Existing Instance sample_env.

Lemma sample_world_reachable : @reachable sample_env no_settings sample_world.
Proof.
  apply (reachable_init (E := sample_env) (S := no_settings) sample_file boot).
  vm_compute. reflexivity.
Defined.

Lemma sample_marked_reachable : @reachable sample_env no_settings sample_marked.
Proof.
  apply (reachable_call (E := sample_env) (S := no_settings)
           (CallWarn 1%nat) sample_confirmed
           (fst (run_call (CallWarn 1%nat) sample_confirmed)));
    [|apply surjective_pairing].
  apply (reachable_call (E := sample_env) (S := no_settings)
           (CallAd 0%nat) sample_warned
           (fst (run_call (CallAd 0%nat) sample_warned)));
    [|apply surjective_pairing].
  apply (reachable_call (E := sample_env) (S := no_settings)
           (CallWarn 0%nat) sample_world
           (fst (run_call (CallWarn 0%nat) sample_world)));
    [|apply surjective_pairing].
  apply sample_world_reachable.
Defined.

(** C4: on the sample document of three blocks, [mark_blocks_for_deletion]
    with the positions 2 and 99 gives block 2 the score 3 and changes no
    other score; with the out-of-range position 0 it gives the last block
    the score 3; with the out-of-range position -5 it raises [IndexError]. *)
Theorem mark_blocks_for_deletion_out_of_range :
  let mark ps := mark_blocks_for_deletion (E := sample_env) ps sample_world in
  (score_at sample_world <$> [1; 2; 3]%nat = [Some 0; Some 0; Some 0]) ∧
  (fst (mark [2; 99]) = Ok tt ∧
   score_at (snd (mark [2; 99])) <$> [1; 2; 3]%nat = [Some 0; Some 3; Some 0]) ∧
  (fst (mark [0]) = Ok tt ∧
   score_at (snd (mark [0])) <$> [1; 2; 3]%nat = [Some 0; Some 0; Some 3]) ∧
  fst (mark [-5]) = Raise IndexError.
Proof. vm_compute. repeat split; reflexivity. Qed.

Lemma final_cue_dropped_witness :
  ∃ w', _breakup_block (E := sample_env) sample_lines boot = (Ok tt, w') ∧
        length (blocks (self w')) = 3%nat ∧
        block_objects w' = block_of_cue (E := sample_env) <$> removelast sample_cues.
Proof.
  apply (final_cue_dropped (E := sample_env) sample_cues [[]] boot).
  - reflexivity.
  - reflexivity.
  - reflexivity.
  - right. reflexivity.
  - reflexivity.
Defined.

Lemma ad_warning_disjoint_witness :
  ad_blocks (self sample_marked) = {[0%nat]} ∧
  warning_blocks (self sample_marked) = {[1%nat]} ∧
  ad_blocks (self sample_marked) ## warning_blocks (self sample_marked).
Proof.
  split; [vm_compute; reflexivity|]. split; [vm_compute; reflexivity|].
  apply (ad_warning_disjoint (E := sample_env) (S := no_settings) sample_marked).
  apply sample_marked_reachable.
Defined.

Lemma content_exception_witness :
  (has_content (E := sample_env) (blank short_file boot) = false →
   __init__ (E := sample_env) (S := no_settings) short_file boot
   = (Raise (SubtitleContentException short_file),
      set_short_path (S := no_settings) short_file (blank short_file boot))) ∧
  (has_content (E := sample_env) (blank short_file boot) = true →
   ∀ f w3, __init__ (E := sample_env) (S := no_settings) short_file boot
           ≠ (Raise (SubtitleContentException f), w3)).
Proof.
  apply (content_exception (E := sample_env) (S := no_settings)
           short_file boot (lit "Hello world") (blank short_file boot)).
  - reflexivity.
  - reflexivity.
Defined.

(** C6 as stated fails for the empty string as override: [if args.language]
    takes it for no override, and the language comes from the file name. *)
Lemma empty_override_not_stored :
  ¬ (∀ (E : Env) (S : Settings) subtitle_file w0 w l,
       args_language = Some l →
       __init__ subtitle_file w0 = (Ok tt, w) →
       language (self w) = l).
Proof.
  intros Hclaim.
  specialize (Hclaim sample_env (sample_settings (Some []) None None) sample_file boot
                (snd (__init__ (E := sample_env)
                        (S := sample_settings (Some []) None None) sample_file boot))
                [] eq_refl).
  assert (Hen : lit "en" = @nil char → False) by discriminate.
  apply Hen. rewrite <- Hclaim; vm_compute; reflexivity.
Qed.

Lemma override_language_witness :
  language (self long_world) = lit "sv" ∧
  ∃ sub_content correct,
    trace long_world
    = trace (boot (E := sample_env))
      ++ validation_events (E := sample_env) (lit "sv") sub_content
      ++ (if correct : bool then [] else [EvLogWarning (mismatch_message (lit "sv"))]).
Proof.
  apply (override_language (E := sample_env) (S := sv_settings) long_file boot).
  - reflexivity.
  - discriminate.
  - vm_compute. reflexivity.
Defined.

Example long_world_trace :
  trace long_world
  = [EvGet2LetterCode (lit "sv");
     EvDetectLangs (doc_content long_world);
     EvLogWarning (mismatch_message (lit "sv"))].
Proof. vm_compute. reflexivity. Qed.

Lemma language_is_correct_spec_witness :
  ∃ r w',
    language_is_correct (E := sample_env) sample_world = (r, w') ∧
    self w' = self sample_world ∧ heap w' = heap sample_world ∧
    language (self w') = language (self sample_world) ∧
    (language (self sample_world) = und → r = Ok true) ∧
    (truthy_opt (get_2letter_code (language (self sample_world))) = false → r = Ok true) ∧
    (len (doc_content sample_world) < 500 → r = Ok true) ∧
    (language (self sample_world) ≠ und →
     truthy_opt (get_2letter_code (language (self sample_world))) = true →
     500 ≤ len (doc_content sample_world) →
     ∀ top rest,
       detect_langs (doc_content sample_world) = Some (top :: rest) →
       r = Ok (bool_decide (Some (lang top)
                            = get_2letter_code (language (self sample_world)))
               && (0.8 <? prob top)%float)).
Proof.
  apply (language_is_correct_spec (E := sample_env) (S := no_settings) sample_world).
  apply sample_world_reachable.
Defined.

(** On the long document, whose tag is [sv] while the detector says [en],
    validation asks the detector and answers no; the tag stays. *)
Example language_is_correct_long :
  fst (language_is_correct (E := sample_env) long_world) = Ok false ∧
  language (self (snd (language_is_correct (E := sample_env) long_world))) = lit "sv".
Proof. vm_compute. split; reflexivity. Qed.

Lemma reindex_then_render_witness :
  ∃ w1,
    reindex (E := sample_env) sample_world = (Ok tt, w1) ∧
    self w1 = self sample_world ∧
    (∀ k l, blocks (self sample_world) !! k = Some l →
       ∃ b, heap sample_world !! l = Some b ∧
            heap w1 !! l = Some (set_current_index (Z.of_nat k + 1) b)) ∧
    (∀ l, l ∉ blocks (self sample_world) → heap w1 !! l = heap sample_world !! l) ∧
    ∃ out,
      (first ← to_content; second ← to_content; mret (first, second)) w1
      = (Ok (out, out), w1).
Proof.
  apply (reindex_then_render (E := sample_env) (S := no_settings) sample_world).
  apply sample_world_reachable.
Defined.

Example reindex_then_render_sample :
  fst ((reindex (E := sample_env);; to_content) sample_world)
  = Ok (lit "1" ++ [chr_newline] ++ lit "Hello world" ++ [chr_newline; chr_newline]
        ++ lit "2" ++ [chr_newline] ++ lit "Goodbye" ++ [chr_newline; chr_newline]
        ++ lit "3" ++ [chr_newline] ++ lit "See you" ++ [chr_newline]).
Proof. vm_compute. reflexivity. Qed.

Lemma determine_language_from_filename_witness :
  ∃ w', determine_language (E := sample_env) (S := no_settings) (blank sample_file boot)
        = (Ok tt, w') ∧
        language (self w') = lit "en" ∧
        trace w' = [EvIsLanguage (lit "en")].
Proof.
  destruct (determine_language_from_filename (E := sample_env) (S := no_settings)
              (blank sample_file boot) eq_refl) as (_ & _ & Hmovie).
  apply Hmovie; reflexivity.
Defined.

Lemma fewer_than_three_lines_witness :
  ∃ w3, __init__ (E := sample_env) (S := no_settings) short_file boot
        = (Raise (SubtitleContentException short_file), w3) ∧
        blocks (self w3) = [].
Proof.
  destruct (fewer_than_three_lines (E := sample_env) (S := no_settings)
              short_file boot (lit "Hello world") (blank short_file boot))
    as (_ & _ & Hinit).
  - reflexivity.
  - vm_compute. lia.
  - exact Hinit.
Defined.

End Samples.

(** * Further properties of the code *)

(** ** Forced deletion: positions in range, positions below 1, frame *)

Section MarkMore.
Context {E : Env} {S : Settings}.

Lemma mark_cons_run index rest w :
  mark_blocks_for_deletion (index :: rest) w =
  match mark_blocks_for_deletion [index] w with
  | (Ok _, w1) => mark_blocks_for_deletion rest w1
  | (Raise e, w1) => (Raise e, w1)
  end.
Proof.
  simpl. rewrite !run_get_self, !run_bind.
  destruct ((if len (blocks (self w)) <=? index - 1 then mret ()
             else getitem (blocks (self w)) (index - 1)
                  ≫= λ block, load block ≫= λ b, store block (set_regex_matches 3 b)) w)
    as [[[]|e] w1]; reflexivity.
Qed.

Lemma only_scores_refl w : only_scores w w.
Proof.
  repeat split. intros l. destruct (heap w !! l); auto.
Qed.

Lemma only_scores_trans w1 w2 w3 :
  only_scores w1 w2 → only_scores w2 w3 → only_scores w1 w3.
Proof.
  intros (Hs & Ht & Hn & Hh) (Hs' & Ht' & Hn' & Hh').
  repeat split; try congruence. intros l.
  specialize (Hh l). specialize (Hh' l).
  destruct (heap w1 !! l), (heap w2 !! l), (heap w3 !! l); try tauto.
  destruct Hh as (Hc & Hi & Ho & Hr), Hh' as (Hc' & Hi' & Ho' & Hr').
  repeat split; try congruence.
  destruct Hr' as [Hr'|Hr']; [|auto]. destruct Hr as [Hr|Hr]; [left|right]; congruence.
Qed.

Lemma only_scores_store w l b :
  heap w !! l = Some b →
  only_scores w (with_heap (<[l := set_regex_matches 3 b]> (heap w)) w).
Proof.
  intros Hb. repeat split. intros l'. simpl.
  destruct (decide (l = l')) as [<-|Hne].
  - rewrite lookup_insert_eq, Hb. simpl. auto.
  - rewrite lookup_insert_ne by exact Hne. destruct (heap w !! l'); auto.
Qed.

Lemma mark_one_only_scores index w r w' :
  mark_blocks_for_deletion [index] w = (r, w') → only_scores w w'.
Proof.
  rewrite mark_one_run.
  destruct (_ <=? _); [intros [= <- <-]; apply only_scores_refl|].
  destruct (py_index _ _) as [l|]; [|intros [= <- <-]; apply only_scores_refl].
  destruct (heap w !! l) as [b|] eqn:Hb; intros [= <- <-].
  - apply only_scores_store, Hb.
  - apply only_scores_refl.
Qed.

Lemma mark_loop_only_scores purge_list : ∀ w r w',
  mark_blocks_for_deletion purge_list w = (r, w') → only_scores w w'.
Proof.
  induction purge_list as [|index rest IH]; intros w r w'.
  - intros [= <- <-]. apply only_scores_refl.
  - rewrite mark_cons_run.
    destruct (mark_blocks_for_deletion [index] w) as [[[]|e] w1] eqn:Hone.
    + intros Hrest. eapply only_scores_trans;
        [eapply mark_one_only_scores, Hone|eapply IH, Hrest].
    + intros [= <- <-]. eapply mark_one_only_scores, Hone.
Qed.

(** X4: whatever the positions and whether it ends or raises,
    [mark_blocks_for_deletion] leaves the document object (block sequence,
    mark sets, language, paths) and the trace as they are, creates and
    removes no object, and changes of a block nothing but the score, which
    stays or becomes 3. *)
Theorem mark_blocks_for_deletion_only_scores (purge_list : list Z) (w w' : World) r :
  mark_blocks_for_deletion purge_list w = (r, w') →
  self w' = self w ∧ trace w' = trace w ∧
  (∀ l, is_Some (heap w' !! l) ↔ is_Some (heap w !! l)) ∧
  ∀ l b b', heap w !! l = Some b → heap w' !! l = Some b' →
    content b' = content b ∧ current_index b' = current_index b ∧
    other b' = other b ∧
    (regex_matches b' = regex_matches b ∨ regex_matches b' = 3).
Proof.
  intros Hrun. destruct (mark_loop_only_scores _ _ _ _ Hrun) as (Hs & Ht & _ & Hh).
  split; [exact Hs|]. split; [exact Ht|]. split.
  - intros l. specialize (Hh l).
    destruct (heap w !! l), (heap w' !! l); split; intros [? ?]; try tauto; eauto.
  - intros l b b' Hb Hb'. specialize (Hh l). rewrite Hb, Hb' in Hh. exact Hh.
Qed.

Lemma set_regex_matches_twice (b : SubBlock Payload) :
  set_regex_matches 3 (set_regex_matches 3 b) = set_regex_matches 3 b.
Proof. reflexivity. Qed.

Lemma marked_cons_ne p ps k (b : SubBlock Payload) :
  Z.of_nat k + 1 ≠ p → marked (p :: ps) k b = marked ps k b.
Proof.
  intros Hne. unfold marked. repeat case_bool_decide; try reflexivity; set_solver.
Qed.

Lemma marked_cons_eq p ps k (b : SubBlock Payload) :
  Z.of_nat k + 1 = p →
  marked (p :: ps) k b = marked ps k (set_regex_matches 3 b).
Proof.
  intros Heq. unfold marked. repeat case_bool_decide; try reflexivity; set_solver.
Qed.

Lemma mark_in_range_loop ps : ∀ w,
  blocks_ok w → Forall (λ p, 1 ≤ p) ps →
  ∃ h', mark_blocks_for_deletion ps w = (Ok tt, with_heap h' w) ∧
        (∀ k l b, blocks (self w) !! k = Some l → heap w !! l = Some b →
                  h' !! l = Some (marked ps k b)) ∧
        (∀ l, l ∉ blocks (self w) → h' !! l = heap w !! l).
Proof.
  induction ps as [|p ps IH]; intros w Hok Hpos.
  - exists (heap w). split; [destruct w; reflexivity|].
    split; [|reflexivity]. intros k l b _ Hb. exact Hb.
  - apply Forall_cons in Hpos as [Hp Hpos]. rewrite mark_cons_run.
    destruct Hok as [Hnd Hlive].
    destruct (Z.lt_ge_cases (len (blocks (self w))) p) as [Habove|Hin].
    + rewrite mark_one_above by exact Habove.
      destruct (IH w (conj Hnd Hlive) Hpos) as (h' & Hrun & Hidx & Hout).
      exists h'. split; [exact Hrun|]. split; [|exact Hout].
      intros k l b Hk Hb. rewrite (Hidx k l b Hk Hb).
      pose proof (lookup_lt_Some _ _ _ Hk) as Hlt. unfold len in Habove.
      symmetry. f_equal. apply marked_cons_ne. lia.
    + unfold len in Hin.
      destruct (lookup_lt_is_Some_2 (blocks (self w)) (Z.to_nat (p - 1))) as [lp Hlp]; [lia|].
      destruct (Hlive lp) as [bp Hbp]; [eapply list_elem_of_lookup_2, Hlp|].
      rewrite (mark_one_in_range p w lp bp Hp Hlp Hbp).
      set (w1 := with_heap (<[lp := set_regex_matches 3 bp]> (heap w)) w).
      assert (Hok1 : blocks_ok w1).
      { split; [exact Hnd|]. intros l Hl. simpl.
        destruct (decide (lp = l)) as [->|Hne].
        - rewrite lookup_insert_eq. eauto.
        - rewrite lookup_insert_ne by exact Hne. apply Hlive, Hl. }
      destruct (IH w1 Hok1 Hpos) as (h' & Hrun & Hidx & Hout).
      exists h'. split; [exact Hrun|]. split.
      * intros k l b Hk Hb.
        destruct (decide (k = Z.to_nat (p - 1))) as [->|Hne].
        -- assert (l = lp) by congruence. subst l.
           assert (b = bp) by congruence. subst b.
           rewrite (Hidx _ lp (set_regex_matches 3 bp) Hk)
             by (simpl; apply lookup_insert_eq).
           f_equal. symmetry. apply marked_cons_eq. lia.
        -- assert (Hll : lp ≠ l).
           { intros ->. apply Hne. eapply NoDup_lookup; eauto. }
           rewrite (Hidx k l b Hk) by (simpl; rewrite lookup_insert_ne; auto).
           f_equal. symmetry. apply marked_cons_ne. lia.
      * intros l Hl. rewrite (Hout l Hl). simpl.
        apply lookup_insert_ne. intros ->. apply Hl.
        eapply list_elem_of_lookup_2, Hlp.
Qed.

(** X2: on every document, for positions that are all at least 1,
    [mark_blocks_for_deletion] ends without an exception; the block at each
    listed position within the sequence gets the score 3 and keeps its other
    attributes, positions beyond the end are skipped, and every other block
    and the document object are left as they were. *)
Theorem mark_blocks_for_deletion_positive (purge_list : list Z) (w : World) :
  reachable w → Forall (λ p, 1 ≤ p) purge_list →
  ∃ w', mark_blocks_for_deletion purge_list w = (Ok tt, w') ∧
        self w' = self w ∧
        (∀ k l b, blocks (self w) !! k = Some l → heap w !! l = Some b →
                  heap w' !! l = Some (marked purge_list k b)) ∧
        (∀ l, l ∉ blocks (self w) → heap w' !! l = heap w !! l).
Proof.
  intros Hreach Hpos.
  destruct (mark_in_range_loop purge_list w (reachable_blocks_ok w Hreach) Hpos)
    as (h' & Hrun & Hidx & Hout).
  exists (with_heap h' w). repeat split; auto.
Qed.

Lemma py_index_negative {A} (l : list A) (k : Z) :
  - len l ≤ k < 0 → py_index l k = l !! Z.to_nat (len l + k).
Proof.
  intros Hk. unfold py_index, len in *.
  destruct (Z.ltb_spec k 0); [|lia].
  destruct (Z.leb_spec 0 (k + Z.of_nat (length l))); [|lia].
  destruct (Z.ltb_spec (k + Z.of_nat (length l)) (Z.of_nat (length l))); [|lia].
  simpl. f_equal. lia.
Qed.

(** X3: on every document of [N] blocks, a position [p] with
    [1 - N <= p <= 0] is taken for a negative index: the block at 0-based
    position [N + p - 1] (the last one for [p = 0]) gets the score 3; a
    position below [1 - N] raises [IndexError] and changes nothing. *)
Theorem mark_blocks_for_deletion_nonpositive (index : Z) (w : World) :
  reachable w → index ≤ 0 →
  (1 - len (blocks (self w)) ≤ index →
   ∃ l b, blocks (self w) !! Z.to_nat (len (blocks (self w)) + index - 1) = Some l ∧
          heap w !! l = Some b ∧
          mark_blocks_for_deletion [index] w
          = (Ok tt, with_heap (<[l := set_regex_matches 3 b]> (heap w)) w)) ∧
  (index < 1 - len (blocks (self w)) →
   mark_blocks_for_deletion [index] w = (Raise IndexError, w)).
Proof.
  intros Hreach Hle. destruct (reachable_blocks_ok w Hreach) as [_ Hlive]. split.
  - intros Hlow.
    destruct (lookup_lt_is_Some_2 (blocks (self w))
                (Z.to_nat (len (blocks (self w)) + index - 1))) as [l Hl];
      [unfold len in *; lia|].
    destruct (Hlive l) as [b Hb]; [eapply list_elem_of_lookup_2, Hl|].
    exists l, b. split; [exact Hl|]. split; [exact Hb|].
    rewrite mark_one_run.
    destruct (Z.leb_spec (len (blocks (self w))) (index - 1)); [unfold len in *; lia|].
    rewrite py_index_negative by lia.
    replace (len (blocks (self w)) + (index - 1))
      with (len (blocks (self w)) + index - 1) by lia.
    rewrite Hl, Hb. reflexivity.
  - intros Hlow. apply mark_one_below. lia.
Qed.

End MarkMore.

(** ** What holds of every document *)

Section InitTail.
Context {E : Env} {S : Settings}.
Variable P : World → Prop.

(** [init_tail] keeps what its four steps keep. *)
Lemma init_tail_preserves :
  (∀ l, preserves P (modify_self (with_language l))) →
  preserves P determine_language →
  preserves P language_is_correct →
  (∀ e, preserves P (emit e)) →
  (∀ ps, preserves P (mark_blocks_for_deletion ps)) →
  preserves P init_tail.
Proof using Type.
  intros Hlang Hdet Hcorrect Hemit Hmark. unfold init_tail.
  apply preserves_bind; [apply preserves_if; auto|intros _].
  apply preserves_bind; [exact Hcorrect|intros correct].
  apply preserves_bind.
  - apply preserves_if; [|apply preserves_ret].
    apply preserves_bind; [apply preserves_get_self|intros s; apply Hemit].
  - intros _. apply preserves_if; [apply Hmark|apply preserves_ret].
Qed.

End InitTail.

Section DocumentInvariants.
Context {E : Env} {S : Settings}.

Lemma sound_closed_store : closed_under same_store sound.
Proof.
  intros w w' (Hb & Hh & Hn) ((Hnd & Hl) & Hc & Hne).
  unfold sound, blocks_fresh, contentful. rewrite Hb, Hh, Hn. auto.
Qed.

Lemma only_scores_lookup w w' (l : loc) b :
  only_scores w w' → heap w !! l = Some b →
  ∃ b', heap w' !! l = Some b' ∧ content b' = content b ∧ other b' = other b.
Proof.
  intros (_ & _ & _ & Hh) Hb. specialize (Hh l). rewrite Hb in Hh.
  destruct (heap w' !! l) as [b'|]; [|contradiction].
  exists b'. destruct Hh as (? & _ & ? & _). auto.
Qed.

Lemma sound_closed_scores : closed_under only_scores sound.
Proof.
  intros w w' Hos ((Hnd & Hl) & Hc & Hne). pose proof Hos as (Hs & _ & Hn & _).
  unfold sound, blocks_fresh, contentful. rewrite Hs, Hn.
  split; [split; [exact Hnd|]|split; [|exact Hne]].
  - intros l Hin. destruct (Hl l Hin) as [Hlt [b Hb]]. split; [exact Hlt|].
    destruct (only_scores_lookup w w' l b Hos Hb) as (b' & Hb' & _). eauto.
  - intros l Hin. destruct (Hc l Hin) as (b & Hb & Ht).
    destruct (only_scores_lookup w w' l b Hos Hb) as (b' & Hb' & Hcont & _).
    exists b'. split; [exact Hb'|]. rewrite Hcont. exact Ht.
Qed.

(** Segmentation keeps the blocks distinct and with content. *)
Lemma emitted_contentful b w :
  blocks_fresh w → contentful w → contentful (emitted b w).
Proof.
  intros [_ Hl] Hc l Hin. unfold emitted in *. simpl in *.
  destruct (truthy (content b)) eqn:Ht; simpl in Hin.
  - apply elem_of_app in Hin as [Hin|Hin].
    + destruct (Hc l Hin) as (b0 & Hb0 & Ht0). exists b0. split; [|exact Ht0].
      rewrite lookup_insert_ne; [exact Hb0|]. destruct (Hl l Hin). lia.
    + apply list_elem_of_singleton in Hin. subst l. exists b.
      split; [apply lookup_insert_eq|exact Ht].
  - destruct (Hc l Hin) as (b0 & Hb0 & Ht0). exists b0. split; [|exact Ht0].
    rewrite lookup_insert_ne; [exact Hb0|]. destruct (Hl l Hin). lia.
Qed.

Lemma breakup_step_contentful raw last_break i :
  preserves (λ w, blocks_fresh w ∧ contentful w) (breakup_step raw last_break i).
Proof.
  intros w r w'. rewrite breakup_step_run.
  repeat (case_match; try (intros [= <- <-]; auto)).
  intros [Hf Hc]. split; [apply blocks_fresh_emitted, Hf|apply emitted_contentful; assumption].
Qed.

Lemma parse_file_content_contentful file_content :
  preserves (λ w, blocks_fresh w ∧ contentful w) (_parse_file_content file_content).
Proof.
  unfold _parse_file_content, _breakup_block. preserves_auto.
  apply breakup_step_contentful.
Qed.

Lemma has_content_nonempty w : has_content w = true → blocks (self w) ≠ [].
Proof. unfold has_content. destruct (blocks (self w)); [discriminate|discriminate]. Qed.

Lemma init_tail_sound : preserves sound init_tail.
Proof.
  pose proof sound_closed_store as HP.
  apply init_tail_preserves.
  - intros l. apply preserves_modify_self. intros w. apply HP. repeat split.
  - apply (determine_language_frame same_store sound HP); intros; repeat split.
  - apply (language_is_correct_frame same_store sound HP); intros; repeat split.
  - intros e. apply preserves_emit. intros w. apply HP. repeat split.
  - intros ps w r w' Hrun. apply sound_closed_scores.
    eapply mark_loop_only_scores, Hrun.
Qed.

(** The document at the end of a successful [__init__]. *)
Lemma init_sound subtitle_file w0 w :
  __init__ subtitle_file w0 = (Ok tt, w) → sound w.
Proof.
  rewrite init_run.
  destruct (read_file subtitle_file (blank subtitle_file w0)) as [[fc|e] w1] eqn:Hread;
    [|discriminate].
  destruct (_parse_file_content fc w1) as [[[]|e] w2] eqn:Hparse; [|discriminate].
  pose proof (parsed_blocks_ok _ _ _ _ _ _ Hread Hparse) as Hok.
  rewrite (bool_run _ Hok).
  destruct (has_content (set_short_path subtitle_file w2)) eqn:Hc; [|discriminate].
  intros Htail. eapply init_tail_sound; [exact Htail|].
  pose proof (read_file_state _ _ _ _ Hread) as ->.
  destruct (parse_file_content_contentful fc _ _ _ Hparse) as [Hf Hcont].
  { split; [apply blocks_fresh_blank|]. intros l Hin. inversion Hin. }
  split; [|split].
  - apply (blocks_fresh_closed w2); [repeat split; simpl; auto|exact Hf].
  - exact Hcont.
  - apply has_content_nonempty in Hc. exact Hc.
Qed.

Lemma to_content_state w r w' : to_content w = (r, w') → w' = w.
Proof.
  intros Hrun.
  apply (to_content_frame (λ w1 w2, w2 = w1) (λ w1, w1 = w)) with (w := w) (r := r).
  - intros w1 w2 -> ->. reflexivity.
  - exact Hrun.
  - reflexivity.
Qed.

Lemma kept_refl w : kept w w.
Proof. repeat split. intros l b Hb. eauto. Qed.

Lemma only_scores_kept w w' : only_scores w w' → kept w w'.
Proof.
  intros Hos. pose proof Hos as (Hs & _ & Hn & _). unfold kept. rewrite Hs.
  repeat split; auto.
  intros l b Hb. eapply only_scores_lookup; eassumption.
Qed.

Lemma reindex_run w :
  blocks_ok w →
  ∃ h', reindex w = (Ok tt, with_heap h' w) ∧
        (∀ k l, blocks (self w) !! k = Some l →
           ∃ b, heap w !! l = Some b ∧
                h' !! l = Some (set_current_index (Z.of_nat k + 1) b)) ∧
        (∀ l, l ∉ blocks (self w) → h' !! l = heap w !! l).
Proof.
  intros [Hnd Hlive].
  destruct (reindex_loop (blocks (self w)) 1 w Hnd Hlive) as (h' & Hrun & Hidx & Hout).
  exists h'. split; [|split; [|exact Hout]].
  - unfold reindex. rewrite run_get_self.
    change (for_each _ (blocks (self w)) 1) with (for_each reindex_body (blocks (self w)) 1).
    rewrite run_bind, Hrun. reflexivity.
  - intros k l Hk. destruct (Hidx k l Hk) as (b & Hb & Hb').
    exists b. split; [exact Hb|]. rewrite Hb'. do 2 f_equal. lia.
Qed.

Lemma reindex_kept w r w' : blocks_ok w → reindex w = (r, w') → kept w w'.
Proof.
  intros Hok. destruct (reindex_run w Hok) as (h' & Hrun & Hidx & Hout).
  rewrite Hrun. intros [= <- <-]. repeat split. simpl. intros l b Hb.
  destruct (decide (l ∈ blocks (self w))) as [Hin|Hnotin].
  - apply list_elem_of_lookup_1 in Hin as [k Hk].
    destruct (Hidx k l Hk) as (b0 & Hb0 & Hb'). rewrite Hb in Hb0. injection Hb0 as <-.
    eexists. split; [exact Hb'|]. split; reflexivity.
  - rewrite (Hout l Hnotin). eauto.
Qed.

Lemma run_call_kept c w r w' : blocks_ok w → run_call c w = (r, w') → kept w w'.
Proof.
  intros Hok. destruct c as [b|b|ps| |]; simpl.
  - rewrite warn_run. intros [= <- <-].
    case_bool_decide; repeat split; simpl; eauto.
  - rewrite ad_run. intros [= <- <-]. repeat split; simpl; eauto.
  - intros Hrun. eapply only_scores_kept, mark_loop_only_scores, Hrun.
  - apply reindex_kept, Hok.
  - rewrite run_bind. destruct (to_content w) as [[out|e] w1] eqn:Hout;
      intros [= <- <-]; apply to_content_state in Hout; subst w1; apply kept_refl.
Qed.

Lemma sound_kept w w' : kept w w' → sound w → sound w'.
Proof.
  intros (Hb & _ & _ & _ & Hn & Hh) ((Hnd & Hl) & Hc & Hne).
  unfold sound, blocks_fresh, contentful. rewrite Hb, Hn.
  split; [split; [exact Hnd|]|split; [|exact Hne]].
  - intros l Hin. destruct (Hl l Hin) as [Hlt [b Hb0]]. split; [exact Hlt|].
    destruct (Hh l b Hb0) as (b' & Hb' & _). eauto.
  - intros l Hin. destruct (Hc l Hin) as (b & Hb0 & Ht).
    destruct (Hh l b Hb0) as (b' & Hb' & Hcont & _).
    exists b'. split; [exact Hb'|]. rewrite Hcont. exact Ht.
Qed.

Lemma reachable_sound w : reachable w → sound w.
Proof.
  induction 1 as [f w0 w Hinit | c w r w' Hreach IH Hcall].
  - eapply init_sound, Hinit.
  - eapply sound_kept; [|exact IH].
    eapply run_call_kept; [|exact Hcall]. apply blocks_fresh_ok, IH.
Qed.

(** X5: every document has at least one block, its blocks are distinct
    objects, and each of them has non-empty content: so [__bool__] answers
    true and [__len__] at least 1, in every state the calls lead to. *)
Theorem document_never_empty (w : World) :
  reachable w →
  blocks (self w) ≠ [] ∧ NoDup (blocks (self w)) ∧
  (∀ l, l ∈ blocks (self w) →
        ∃ b, heap w !! l = Some b ∧ truthy (content b) = true) ∧
  __bool__ w = (Ok true, w) ∧
  ∃ n, __len__ w = (Ok n, w) ∧ 1 ≤ n.
Proof.
  intros Hreach. destruct (reachable_sound w Hreach) as ((Hnd & Hl) & Hc & Hne).
  split; [exact Hne|]. split; [exact Hnd|]. split; [exact Hc|]. split.
  - rewrite bool_run by (apply reachable_blocks_ok, Hreach). f_equal. f_equal.
    unfold has_content. apply existsb_exists.
    destruct (blocks (self w)) as [|l ls] eqn:Hbs; [contradiction|].
    destruct (Hc l) as (b & Hb & Ht); [rewrite Hbs; left|].
    exists l. split; [left; reflexivity|]. rewrite Hb. exact Ht.
  - exists (len (blocks (self w))). split; [reflexivity|].
    unfold len. destruct (blocks (self w)); [contradiction|simpl; lia].
Qed.

(** X6: no call on a document ([warn], [ad], [mark_blocks_for_deletion],
    [reindex], rendering), whether it ends or raises, changes the block
    sequence, the file, the language or the display path, and none creates
    or changes the content of a block. *)
Theorem calls_keep_document (c : Call) (w w' : World) r :
  reachable w → run_call c w = (r, w') →
  blocks (self w') = blocks (self w) ∧ file (self w') = file (self w) ∧
  language (self w') = language (self w) ∧
  short_path (self w') = short_path (self w) ∧
  ∀ l b, heap w !! l = Some b →
         ∃ b', heap w' !! l = Some b' ∧ content b' = content b ∧ other b' = other b.
Proof.
  intros Hreach Hcall.
  destruct (run_call_kept c w r w' (reachable_blocks_ok w Hreach) Hcall)
    as (Hb & Hf & Hl & Hp & _ & Hh).
  repeat split; assumption.
Qed.

End DocumentInvariants.

(** ** The fresh document and the mark sets *)

Section MarksMore.
Context {E : Env} {S : Settings}.

Lemma init_tail_short_path w r w' :
  init_tail w = (r, w') → short_path (self w') = short_path (self w).
Proof.
  intros Hrun.
  assert (HP : closed_under same_short_path (same_short_path w)).
  { intros w1 w2 H12 H1. unfold same_short_path in *. congruence. }
  assert (Hp : preserves (same_short_path w) init_tail).
  { apply init_tail_preserves.
    - intros l. apply preserves_modify_self. intros w1. apply HP. reflexivity.
    - apply (determine_language_frame same_short_path _ HP); intros; reflexivity.
    - apply (language_is_correct_frame same_short_path _ HP); intros; reflexivity.
    - intros e. apply preserves_emit. intros w1. apply HP. reflexivity.
    - intros ps. apply (mark_blocks_for_deletion_frame same_short_path _ HP).
      intros; reflexivity. }
  eapply Hp; [exact Hrun|reflexivity].
Qed.

(** X7: a document that [__init__] has just built has both mark sets empty,
    the file it was built from, and as display path the file relative to
    the configured base, or the file itself when it is not under the base. *)
Theorem fresh_document subtitle_file (w0 w : World) :
  __init__ subtitle_file w0 = (Ok tt, w) →
  ad_blocks (self w) = ∅ ∧ warning_blocks (self w) = ∅ ∧
  file (self w) = subtitle_file ∧
  short_path (self w)
  = default subtitle_file (relative_to subtitle_file config_relative_base).
Proof.
  intros Hinit.
  assert (Hmarks : ad_blocks (self w) = ∅ ∧ warning_blocks (self w) = ∅ ∧
                   file (self w) = subtitle_file).
  { eapply (init_frame same_marks_file
              (λ w, ad_blocks (self w) = ∅ ∧ warning_blocks (self w) = ∅ ∧
                    file (self w) = subtitle_file)).
    - intros w1 w2 (Ha & Hw & Hf) H1. rewrite Ha, Hw, Hf. exact H1.
    - intros; repeat split.
    - intros; repeat split.
    - intros; repeat split.
    - intros; repeat split.
    - intros fc.
      apply (parse_file_content_frame same_marks_file); [|intros; repeat split..].
      intros w1 w2 (Ha & Hw & Hf) H1. rewrite Ha, Hw, Hf. exact H1.
    - exact Hinit.
    - repeat split. }
  destruct Hmarks as (Ha & Hw & Hf). repeat split; try assumption.
  revert Hinit. rewrite init_run.
  destruct (read_file subtitle_file (blank subtitle_file w0)) as [[fc|e] w1]; [|discriminate].
  destruct (_parse_file_content fc w1) as [[[]|e] w2]; [|discriminate].
  destruct (__bool__ (set_short_path subtitle_file w2)) as [[[|]|e] w3] eqn:Hbool;
    try discriminate.
  intros Htail. rewrite (init_tail_short_path _ _ _ Htail).
  assert (Hp : preserves (same_short_path (set_short_path subtitle_file w2)) __bool__).
  { apply (bool_frame (λ w1 w2, w2 = w1)). intros wa wb -> Ha'. exact Ha'. }
  rewrite (Hp _ _ _ Hbool eq_refl). reflexivity.
Qed.

(** X8: no call ever takes a block out of the ad set; a block leaves the
    warning set only through [ad] of that block, and enters it only through
    [warn] of that block, when it is not in the ad set. *)
Theorem ad_is_permanent (c : Call) (w w' : World) r :
  run_call c w = (r, w') →
  ad_blocks (self w) ⊆ ad_blocks (self w') ∧
  (∀ b, b ∈ warning_blocks (self w) → b ∉ warning_blocks (self w') → c = CallAd b) ∧
  (∀ b, b ∉ warning_blocks (self w) → b ∈ warning_blocks (self w') →
        c = CallWarn b ∧ b ∉ ad_blocks (self w)).
Proof.
  assert (Hsame : self w' = self w →
    ad_blocks (self w) ⊆ ad_blocks (self w') ∧
    (∀ b, b ∈ warning_blocks (self w) → b ∉ warning_blocks (self w') → c = CallAd b) ∧
    (∀ b, b ∉ warning_blocks (self w) → b ∈ warning_blocks (self w') →
          c = CallWarn b ∧ b ∉ ad_blocks (self w))).
  { intros ->. repeat split; try set_solver. }
  destruct c as [b|b|ps| |]; simpl.
  - rewrite warn_run. intros [= <- <-].
    case_bool_decide as Hb; simpl; [|apply Hsame; reflexivity].
    split; [set_solver|]. split; [set_solver|].
    intros b' Hn Hin. assert (b' = b) by set_solver. subst b'. auto.
  - rewrite ad_run. intros [= <- <-]. simpl.
    split; [set_solver|]. split; [|set_solver].
    intros b' Hin Hn. f_equal.
    destruct (decide (b = b')) as [Heq|Hne]; [exact Heq|]. exfalso. set_solver.
  - intros Hrun. apply Hsame. eapply mark_loop_only_scores, Hrun.
  - intros Hrun. apply Hsame.
    apply (reindex_frame same_self (same_self w)) with (w := w) (r := r);
      [intros w1 w2 H12 H1; unfold same_self in *; congruence
      |intros; reflexivity|exact Hrun|reflexivity].
  - rewrite run_bind. destruct (to_content w) as [[out|e] w1] eqn:Hout;
      intros [= <- <-]; apply to_content_state in Hout; subst w1; apply Hsame; reflexivity.
Qed.

Lemma world_eq (w w' : World) :
  heap w = heap w' → next_loc w = next_loc w' → trace w = trace w' →
  file (self w) = file (self w') → blocks (self w) = blocks (self w') →
  ad_blocks (self w) = ad_blocks (self w') →
  warning_blocks (self w) = warning_blocks (self w') →
  language (self w) = language (self w') →
  short_path (self w) = short_path (self w') → w = w'.
Proof.
  destruct w as [h n s t], w' as [h' n' s' t'], s, s'. simpl.
  intros; subst; reflexivity.
Qed.

Lemma run_mark_call c w :
  is_mark_call c = true →
  run_call c w = (Ok tt, with_self (mark_subtitle c (self w)) w).
Proof.
  destruct c as [b|b| | |]; try discriminate; intros _; simpl.
  - rewrite warn_run. unfold mark_subtitle. case_bool_decide; [reflexivity|].
    destruct w as [h n s t], s; reflexivity.
  - rewrite ad_run. reflexivity.
Qed.

(** X9: calls of [warn] and [ad] commute: two of them, on the same block or
    on different ones, lead to the same state in either order; so the mark
    sets depend on which blocks were warned and which were confirmed, not
    on the order of the calls. *)
Theorem warn_ad_commute (c1 c2 : Call) (w : World) :
  is_mark_call c1 = true → is_mark_call c2 = true →
  (run_call c1;; run_call c2) w = (run_call c2;; run_call c1) w.
Proof.
  intros H1 H2. rewrite !run_bind.
  rewrite (run_mark_call c1 w H1), (run_mark_call c2 w H2). cbv iota beta.
  rewrite (run_mark_call c2 _ H2), (run_mark_call c1 _ H1). f_equal.
  unfold with_self. simpl. f_equal.
  destruct (self w) as [f bs A W lg sp].
  destruct c1 as [a|a| | |], c2 as [b|b| | |]; try discriminate;
    unfold mark_subtitle, with_warning_blocks; simpl;
    repeat case_bool_decide; simpl; f_equal; set_solver.
Qed.

End MarksMore.

(** ** Reindexing, rendering and the warning indexes *)

Section SerializerMore.
Context {E : Env} {S : Settings}.

Lemma for_each_concat {A} (f : SubBlock Payload → list A) bs acc w :
  (∀ l, l ∈ bs → is_Some (heap w !! l)) →
  for_each (λ acc block, b ← load block; mret (acc ++ f b)) bs acc w
  = (Ok (acc ++ concat ((λ l, match heap w !! l with
                               | Some b => f b
                               | None => []
                               end) <$> bs)), w).
Proof.
  revert acc. induction bs as [|l bs IH]; intros acc Hlive.
  - simpl. rewrite app_nil_r. reflexivity.
  - destruct (load_live l w) as (b & Hb & Hload); [apply Hlive; left|].
    rewrite for_each_cons, run_bind, (run_bind_ok _ _ _ _ _ Hload), run_ret.
    rewrite IH by (intros l' Hin; apply Hlive; right; exact Hin).
    simpl. rewrite Hb, app_assoc. reflexivity.
Qed.

(** X10: [reindex] is idempotent: on every document a second [reindex]
    right after the first changes nothing. *)
Theorem reindex_idempotent (w : World) :
  reachable w →
  ∃ w1, reindex w = (Ok tt, w1) ∧ reindex w1 = (Ok tt, w1) ∧
        (reindex;; reindex) w = (Ok tt, w1).
Proof.
  intros Hreach. pose proof (reachable_blocks_ok w Hreach) as Hok.
  destruct (reindex_run w Hok) as (h1 & Hrun1 & Hidx1 & Hout1).
  assert (Hok1 : blocks_ok (with_heap h1 w)).
  { destruct Hok as [Hnd Hlive]. split; [exact Hnd|]. intros l Hin. simpl.
    apply list_elem_of_lookup_1 in Hin as [k Hk].
    destruct (Hidx1 k l Hk) as (b & _ & Hb'). rewrite Hb'. eauto. }
  destruct (reindex_run _ Hok1) as (h2 & Hrun2 & Hidx2 & Hout2). simpl in *.
  assert (Heq : h2 = h1).
  { apply map_eq. intros l.
    destruct (decide (l ∈ blocks (self w))) as [Hin|Hnotin].
    - apply list_elem_of_lookup_1 in Hin as [k Hk].
      destruct (Hidx1 k l Hk) as (b & _ & Hb1).
      destruct (Hidx2 k l Hk) as (b1 & Hb1' & Hb2).
      rewrite Hb2, Hb1. rewrite Hb1 in Hb1'. injection Hb1' as <-. reflexivity.
    - apply Hout2, Hnotin. }
  subst h2.
  assert (Hsecond : reindex (with_heap h1 w) = (Ok tt, with_heap h1 w)) by exact Hrun2.
  exists (with_heap h1 w). split; [exact Hrun1|]. split; [exact Hsecond|].
  rewrite (run_bind_ok _ _ _ _ _ Hrun1). exact Hsecond.
Qed.

Lemma py_slice_drop_last {A} (x : list A) (c : A) : py_slice (x ++ [c]) 0 (-1) = x.
Proof.
  unfold py_slice, slice_bound. rewrite length_app. simpl length.
  change (0 <? 0) with false. change (-1 <? 0) with true. cbv iota.
  match goal with |- take ?n (drop ?m _) = _ =>
    replace n with (length x) by lia; replace m with 0%nat by lia end.
  rewrite drop_0, take_app_length. reflexivity.
Qed.

Lemma to_content_run w :
  blocks_ok w → to_content w = (Ok (py_slice (rendered w) 0 (-1)), w).
Proof.
  intros [_ Hlive]. unfold to_content. rewrite run_get_self.
  change (for_each _ (blocks (self w)) [])
    with (for_each (λ acc block, b ← load block; mret (acc ++ render_block b))
            (blocks (self w)) []).
  rewrite run_bind, (for_each_concat render_block) by exact Hlive. reflexivity.
Qed.

(** X11: on every document [to_content] changes nothing and returns the
    blocks' renderings (index, newline, the block's text form, newline,
    empty line) one after the other, without the very last newline: the
    result followed by a newline is the concatenation. *)
Theorem to_content_rendering (w : World) :
  reachable w →
  ∃ out, to_content w = (Ok out, w) ∧ out ++ [chr_newline] = rendered w.
Proof.
  intros Hreach. pose proof (reachable_blocks_ok w Hreach) as Hok.
  destruct (reachable_sound w Hreach) as (_ & Hc & Hne).
  rewrite (to_content_run w Hok). eexists. split; [reflexivity|].
  unfold rendered.
  destruct (exists_last Hne) as (bs & l & Hbs). rewrite Hbs.
  destruct (Hc l) as (b & Hb & _); [rewrite Hbs; apply elem_of_app; right; left|].
  rewrite fmap_app, concat_app. simpl. rewrite Hb, app_nil_r.
  unfold render_block. rewrite !app_assoc. rewrite py_slice_drop_last. reflexivity.
Qed.

Lemma concat_singletons {A B} (g : A → B) (xs : list A) :
  concat ((λ x, [g x]) <$> xs) = g <$> xs.
Proof. induction xs as [|x xs IH]; simpl; [reflexivity|]. f_equal. exact IH. Qed.

(** X12: when every block of the warning set is a block of the document,
    [get_warning_indexes] right after [reindex] returns, in some order, the
    1-based positions of the warned blocks as decimal strings, one for each
    block of the set. *)
Theorem warning_indexes_after_reindex (w : World) :
  reachable w →
  (∀ l, l ∈ warning_blocks (self w) → l ∈ blocks (self w)) →
  ∃ out w1,
    (reindex;; get_warning_indexes) w = (Ok out, w1) ∧
    length out = size (warning_blocks (self w)) ∧
    ∀ s, s ∈ out ↔
         ∃ k l, blocks (self w) !! k = Some l ∧ l ∈ warning_blocks (self w) ∧
                s = str_of_int (Z.of_nat k + 1).
Proof.
  intros Hreach Hsub. pose proof (reachable_blocks_ok w Hreach) as Hok.
  destruct (reindex_run w Hok) as (h1 & Hrun1 & Hidx1 & Hout1).
  set (w1 := with_heap h1 w).
  set (g := λ l : loc, match h1 !! l with
                        | Some b => str_of_int (current_index b)
                        | None => []
                        end).
  assert (Hget : get_warning_indexes w1 = (Ok (g <$> elements (warning_blocks (self w))), w1)).
  { unfold get_warning_indexes. rewrite run_get_self.
    change (for_each _ (elements (warning_blocks (self w1))) [])
      with (for_each (λ acc block, b ← load block;
                        mret (acc ++ (λ b, [str_of_int (current_index b)]) b))
              (elements (warning_blocks (self w))) []).
    rewrite for_each_concat.
    - simpl app. f_equal. f_equal. rewrite <- (concat_singletons g). f_equal.
      apply list_fmap_ext. intros i l Hl. unfold g. simpl.
      assert (Hin : l ∈ blocks (self w)).
      { apply Hsub, elem_of_elements. eapply list_elem_of_lookup_2, Hl. }
      apply list_elem_of_lookup_1 in Hin as [k Hk].
      destruct (Hidx1 k l Hk) as (b & _ & Hb'). rewrite Hb'. reflexivity.
    - intros l Hl. apply elem_of_elements, Hsub in Hl. simpl.
      apply list_elem_of_lookup_1 in Hl as [k Hk].
      destruct (Hidx1 k l Hk) as (b & _ & Hb'). rewrite Hb'. eauto. }
  exists (g <$> elements (warning_blocks (self w))), w1.
  split; [rewrite (run_bind_ok _ _ _ _ _ Hrun1); exact Hget|]. split.
  - rewrite length_fmap. reflexivity.
  - intros s. rewrite list_elem_of_fmap. split.
    + intros (l & -> & Hl). apply elem_of_elements in Hl.
      destruct (list_elem_of_lookup_1 _ _ (Hsub l Hl)) as [k Hk].
      exists k, l. split; [exact Hk|]. split; [exact Hl|].
      unfold g. destruct (Hidx1 k l Hk) as (b & _ & Hb'). rewrite Hb'. reflexivity.
    + intros (k & l & Hk & Hl & ->). exists l. split; [|apply elem_of_elements, Hl].
      unfold g. destruct (Hidx1 k l Hk) as (b & _ & Hb'). rewrite Hb'. reflexivity.
Qed.

End SerializerMore.

(** ** Language determination in full, and the exceptions of construction *)

Section DetermineMore.
Context {E : Env} {S : Settings}.

Lemma find_probed_none tokens :
  List.find is_language tokens = None → probed tokens = tokens.
Proof.
  induction tokens as [|t ts IH]; simpl; [reflexivity|].
  destruct (is_language t); [discriminate|]. intros Hf. f_equal. apply IH, Hf.
Qed.

(** [determine_language] without default language and without a token the
    registry knows. *)
Lemma determine_language_unnamed w :
  blocks_ok w →
  truthy_opt config_default_language = false →
  List.find is_language (suffix_token_spec <$> candidate_suffixes (file (self w))) = None →
  determine_language w =
  if len (doc_content w) <? 500 then (Ok tt, probed_world w) else
  match detect_langs (doc_content w) with
  | None =>
      (Raise LangDetectException, logged (EvDetectLangs (doc_content w)) (probed_world w))
  | Some [] =>
      (Raise IndexError, logged (EvDetectLangs (doc_content w)) (probed_world w))
  | Some (top :: _) =>
      (Ok tt,
       let w2 := logged (EvDetectLangs (doc_content w)) (probed_world w) in
       if (0.9 <? prob top)%float
       then with_self (with_language (lang top) (self w2)) w2
       else w2)
  end.
Proof.
  intros Hok Hdef Hfind. unfold determine_language. rewrite Hdef.
  rewrite run_bind. simpl. rewrite run_get_self. simpl.
  rewrite run_bind, determine_from_suffixes_run. simpl.
  rewrite candidate_suffixes_slice, candidate_tokens, Hfind.
  fold (probed_world w).
  assert (Hok1 : blocks_ok (probed_world w)) by exact Hok.
  rewrite (run_bind_ok _ _ _ _ _ (sub_content_of_blocks_run _ Hok1)).
  change (doc_content (probed_world w)) with (doc_content w).
  destruct (len (doc_content w) <? 500); [reflexivity|].
  rewrite call_detect_langs_run.
  destruct (detect_langs (doc_content w)) as [[|top rest]|]; try reflexivity.
  unfold getitem. simpl. rewrite run_bind, run_ret.
  destruct (0.9 <? prob top)%float; reflexivity.
Qed.

(** X13: [determine_language] on a document whose blocks are live:
    a default language is adopted as it is, without any call out of the
    module; without default and without a known token in the file name,
    less than 500 characters of content give [und] without a detection;
    otherwise the detector is asked once, and its first guess is adopted
    when its probability is above 0.9, [und] is kept when it is not; a
    detector that fails or returns no guess makes the method raise. *)
Theorem determine_language_precedence (w : World) :
  blocks_ok w →
  (∀ d, config_default_language = Some d → truthy d = true →
     ∃ w', determine_language w = (Ok tt, w') ∧ language (self w') = d ∧
           trace w' = trace w) ∧
  (truthy_opt config_default_language = false →
   List.find is_language (suffix_token_spec <$> candidate_suffixes (file (self w))) = None →
   ∃ r w',
     determine_language w = (r, w') ∧
     (len (doc_content w) < 500 →
        r = Ok tt ∧ language (self w') = und ∧ trace w' = trace (probed_world w)) ∧
     (500 ≤ len (doc_content w) →
        trace w' = trace (probed_world w) ++ [EvDetectLangs (doc_content w)] ∧
        match detect_langs (doc_content w) with
        | Some (top :: _) =>
            r = Ok tt ∧
            language (self w') = if (0.9 <? prob top)%float then lang top else und
        | Some [] => r = Raise IndexError ∧ language (self w') = und
        | None => r = Raise LangDetectException ∧ language (self w') = und
        end)).
Proof.
  intros Hok. split.
  - intros d Hd Ht. unfold determine_language. rewrite Hd. simpl. rewrite Ht.
    eexists. split; [reflexivity|]. split; reflexivity.
  - intros Hdef Hfind. rewrite (determine_language_unnamed w Hok Hdef Hfind).
    destruct (len (doc_content w) <? 500) eqn:Hlen.
    + apply Z.ltb_lt in Hlen. do 2 eexists. split; [reflexivity|].
      split; [auto|]. intros Hge. lia.
    + apply Z.ltb_ge in Hlen.
      destruct (detect_langs (doc_content w)) as [[|top rest]|];
        do 2 eexists; (split; [reflexivity|]); (split; [intros; lia|]); intros _.
      * split; [reflexivity|]. split; reflexivity.
      * destruct (0.9 <? prob top)%float; split; try reflexivity; split; reflexivity.
      * split; [reflexivity|]. split; reflexivity.
Qed.


Lemma read_file_raises f w e w' :
  read_file f w = (Raise e, w') → e = OSError ∨ e = UnicodeDecodeError.
Proof.
  unfold read_file, try_except, open_and_read.
  destruct (open_read f utf_8); simpl; try (intros [= <- <-]; auto); try discriminate.
  destruct (open_read f cp1252); simpl; intros [=]; subst; auto.
Qed.

Lemma breakup_loop_raises raw idxs : ∀ last_break w e w',
  (∀ i, i ∈ idxs → 1 ≤ i < len raw) →
  for_each (breakup_step raw) idxs last_break w = (Raise e, w') →
  ∃ detail, e = ParsingException detail None.
Proof.
  induction idxs as [|i idxs IH]; intros lb w e w' Hin; [discriminate|].
  rewrite for_each_cons, run_bind.
  destruct (breakup_step raw lb i w) as [[lb1|e1] w1] eqn:Hstep.
  - apply IH. intros j Hj. apply Hin. right. exact Hj.
  - intros [= <- <-]. revert Hstep. rewrite breakup_step_run.
    assert (Hi : 1 ≤ i < len raw) by (apply Hin; left).
    replace i with (Z.of_nat (Z.to_nat i)) by lia.
    replace (Z.of_nat (Z.to_nat i) - 1) with (Z.of_nat (Z.to_nat i - 1)) by lia.
    rewrite !py_index_nat.
    destruct (lookup_lt_is_Some_2 raw (Z.to_nat i)) as [line ->]; [unfold len in Hi; lia|].
    destruct (lookup_lt_is_Some_2 raw (Z.to_nat i - 1)) as [prev ->]; [unfold len in Hi; lia|].
    destruct (contains arrow line); [|discriminate].
    destruct (isnumeric prev); [|discriminate].
    destruct (SubBlock_init _) as [detail|b]; [|discriminate].
    intros [= <- <-]. eauto.
Qed.

Lemma parse_file_content_raises file_content w e w' :
  _parse_file_content file_content w = (Raise e, w') →
  ∃ detail, e = ParsingException detail None.
Proof.
  unfold _parse_file_content, _breakup_block. rewrite run_bind.
  destruct (for_each _ _ _ _) as [[lb|e1] w1] eqn:Hloop; [discriminate|].
  intros [= <- <-]. eapply breakup_loop_raises; [|exact Hloop].
  intros i Hi. unfold range in Hi. apply list_elem_of_fmap in Hi as (k & -> & Hk).
  apply elem_of_seq in Hk. unfold len in *. lia.
Qed.

Lemma blocks_ok_scores w w' : only_scores w w' → blocks_ok w → blocks_ok w'.
Proof.
  intros Hos [Hnd Hlive]. pose proof Hos as (Hs & _). split; rewrite Hs; [exact Hnd|].
  intros l Hin. destruct (Hlive l Hin) as [b Hb].
  destruct (only_scores_lookup w w' l b Hos Hb) as (b' & Hb' & _). eauto.
Qed.

Lemma mark_raises_index ps : ∀ w e w',
  blocks_ok w → mark_blocks_for_deletion ps w = (Raise e, w') → e = IndexError.
Proof.
  induction ps as [|p ps IH]; intros w e w' Hok; [discriminate|].
  rewrite mark_cons_run.
  destruct (mark_blocks_for_deletion [p] w) as [[[]|e1] w1] eqn:Hone.
  - apply IH. eapply blocks_ok_scores; [eapply mark_one_only_scores, Hone|exact Hok].
  - intros [= <- <-]. revert Hone. rewrite mark_one_run.
    destruct (_ <=? _); [discriminate|].
    destruct (py_index (blocks (self w)) (p - 1)) as [l|] eqn:Hl; [|intros [= <- _]; reflexivity].
    destruct Hok as [_ Hlive]. destruct (Hlive l) as [b Hb].
    { unfold py_index in Hl. destruct (_ && _); [|discriminate].
      eapply list_elem_of_lookup_2, Hl. }
    rewrite Hb. discriminate.
Qed.

Lemma blocks_ok_closed : closed_under same_blocks blocks_ok.
Proof.
  intros wa wb (Hb & _ & Hh) [Hnd Hl]. split; rewrite Hb; [exact Hnd|].
  intros l Hin. apply Hh, Hl, Hin.
Qed.

Lemma determine_language_raises_ok w e w' :
  blocks_ok w → determine_language w = (Raise e, w') →
  e = LangDetectException ∨ e = IndexError.
Proof.
  intros Hok.
  destruct (truthy_opt config_default_language) eqn:Hdef.
  { unfold determine_language. rewrite Hdef. discriminate. }
  destruct (List.find is_language
              (suffix_token_spec <$> candidate_suffixes (file (self w)))) as [t|] eqn:Hfind.
  { rewrite (determine_language_by_suffix w t Hdef Hfind). discriminate. }
  rewrite (determine_language_unnamed w Hok Hdef Hfind).
  destruct (_ <? 500); [discriminate|].
  destruct (detect_langs _) as [[|top rest]|]; intros [=]; subst; auto.
Qed.

Lemma language_step_ok w r w1 :
  blocks_ok w →
  (if truthy_opt args_language
   then modify_self (with_language (default [] args_language))
   else determine_language) w = (r, w1) →
  blocks_ok w1 ∧ ∀ e, r = Raise e → e = LangDetectException ∨ e = IndexError.
Proof.
  intros Hok. destruct (truthy_opt args_language).
  - intros [= <- <-]. split; [exact Hok|discriminate].
  - intros Hdet. split.
    + eapply (determine_language_frame same_blocks blocks_ok blocks_ok_closed);
        [intros; repeat split; simpl; auto..|exact Hdet|exact Hok].
    + intros e ->. eapply determine_language_raises_ok; eassumption.
Qed.

Lemma language_is_correct_ok w r w1 :
  blocks_ok w → language_is_correct w = (r, w1) →
  blocks_ok w1 ∧ ∀ e, r = Raise e → e = LangDetectException ∨ e = IndexError.
Proof.
  intros Hok Hrun. split.
  - destruct (language_is_correct_trace w r w1 Hok Hrun) as (Hs & Hh & _).
    destruct Hok as [Hnd Hlive]. split; rewrite Hs; [exact Hnd|].
    intros l Hin. rewrite Hh. apply Hlive, Hin.
  - intros e ->. revert Hrun. rewrite (language_is_correct_run w Hok). cbv zeta.
    case_bool_decide; [discriminate|].
    destruct (negb _); [discriminate|]. destruct (_ <? 500); [discriminate|].
    unfold verdict. destruct (detect_langs _) as [[|top rest]|]; intros [=]; subst; auto.
Qed.

(** The rest of [__init__] on live blocks raises only what the detector or
    a position of the destroy list makes it raise. *)
Lemma init_tail_raises_ok w e w' :
  blocks_ok w → init_tail w = (Raise e, w') →
  e = LangDetectException ∨ e = IndexError.
Proof.
  intros Hok. unfold init_tail. rewrite run_bind.
  destruct ((if truthy_opt args_language
             then modify_self (with_language (default [] args_language))
             else determine_language) w) as [[[]|e1] w1] eqn:Hstep;
    destruct (language_step_ok _ _ _ Hok Hstep) as [Hok1 Hr1].
  2: { intros [= <- <-]. apply Hr1. reflexivity. }
  rewrite run_bind.
  destruct (language_is_correct w1) as [[correct|e2] w2] eqn:Hcorrect;
    destruct (language_is_correct_ok _ _ _ Hok1 Hcorrect) as [Hok2 Hr2].
  2: { intros [= <- <-]. apply Hr2. reflexivity. }
  rewrite run_bind.
  assert (Hwarn : ∃ w3, (if negb correct
             then get_self ≫= λ s, emit (EvLogWarning (mismatch_message (language s)))
             else mret tt) w2 = (Ok tt, w3) ∧ blocks_ok w3).
  { destruct correct; simpl; eexists; (split; [reflexivity|exact Hok2]). }
  destruct Hwarn as (w3 & -> & Hok3).
  destruct (truthy_list args_destroy_list); [|discriminate].
  intros Hmark. right. eapply mark_raises_index; eassumption.
Qed.

(** X14: when [__init__] raises, the exception is one of: an [OSError] or a
    [UnicodeDecodeError] of the reading, a [ParsingException] of the block
    constructor, to which the file has been attached, the
    [SubtitleContentException] of the file, the detector's exception, or an
    [IndexError] (a detector without guess, a position of the destroy list
    below the sequence). *)
Theorem init_exceptions subtitle_file (w0 w : World) (e : Exn) :
  __init__ subtitle_file w0 = (Raise e, w) → init_exception subtitle_file e.
Proof.
  rewrite init_run. unfold init_exception.
  destruct (read_file subtitle_file (blank subtitle_file w0)) as [[fc|e1] w1] eqn:Hread.
  2: { intros [= <- <-]. destruct (read_file_raises _ _ _ _ Hread); auto. }
  destruct (_parse_file_content fc w1) as [[[]|e2] w2] eqn:Hparse.
  2: { intros [= <- <-].
       destruct (parse_file_content_raises _ _ _ _ Hparse) as [detail ->]. eauto 10. }
  pose proof (parsed_blocks_ok _ _ _ _ _ _ Hread Hparse) as Hok.
  rewrite (bool_run _ Hok).
  destruct (has_content _).
  - intros Htail. destruct (init_tail_raises_ok _ _ _ Hok Htail); auto 10.
  - intros [= <- <-]. auto 10.
Qed.

End DetermineMore.

(** ** Normalisation and files without a second cue *)

Section Normalisation.
Context {E : Env} {S : Settings}.

Lemma split_nonempty c s : split c s ≠ [].
Proof.
  destruct s as [|x s]; simpl; [discriminate|].
  destruct (N.eqb x c); [discriminate|]. destruct (split c s); discriminate.
Qed.

Lemma split_cons_ne c x s :
  N.eqb x c = false →
  split c (x :: s) = match split c s with
                     | w :: ws => (x :: w) :: ws
                     | [] => [[x]]
                     end.
Proof. intros Hx. simpl. rewrite Hx. reflexivity. Qed.

Lemma split_cons_eq c s : split c (c :: s) = [] :: split c s.
Proof. simpl. rewrite N.eqb_refl. reflexivity. Qed.

(** A prefix without separator goes to the first piece. *)
Lemma split_app_prefix c a : ∀ s first rest,
  c ∉ a → split c s = first :: rest → split c (a ++ s) = (a ++ first) :: rest.
Proof.
  induction a as [|x a IH]; intros s first rest Hc Hs; [exact Hs|].
  apply not_elem_of_cons in Hc as [Hx Hc].
  simpl app. rewrite split_cons_ne by (apply N.eqb_neq; congruence).
  rewrite (IH s first rest Hc Hs). reflexivity.
Qed.

Lemma blank_line_app a b : blank_line (a ++ b) = blank_line a && blank_line b.
Proof. unfold blank_line. apply forallb_app. Qed.

Lemma collapse_none_cons c s :
  collapse None (c :: s)
  = if N.eqb c chr_newline then collapse (Some []) s else c :: collapse None s.
Proof. reflexivity. Qed.

Lemma collapse_some_cons ws c s :
  collapse (Some ws) (c :: s)
  = if N.eqb c chr_newline then collapse (Some []) s
    else if uc_space c then collapse (Some (ws ++ [c])) s
    else chr_newline :: ws ++ c :: collapse None s.
Proof. reflexivity. Qed.

Lemma not_newline_snoc ws c :
  chr_newline ∉ ws → N.eqb c chr_newline = false → chr_newline ∉ ws ++ [c].
Proof.
  intros Hws Hc Hin. apply elem_of_app in Hin as [Hin|Hin]; [auto|].
  apply list_elem_of_singleton in Hin. subst c. rewrite N.eqb_refl in Hc.
  discriminate.
Qed.

Lemma collapse_lines s :
  (∃ first rest, split chr_newline (collapse None s) = first :: rest ∧
                 no_blank_before_last rest = true) ∧
  (∀ ws, chr_newline ∉ ws →
         ∃ m, collapse (Some ws) s = chr_newline :: m ∧
              no_blank_before_last (split chr_newline m) = true).
Proof.
  induction s as [|c s [IHnone IHsome]].
  - split.
    + exists [], []. split; reflexivity.
    + intros ws Hws. exists ws. split; [reflexivity|].
      rewrite <- (app_nil_r ws).
      rewrite (split_app_prefix chr_newline ws [] [] [] Hws eq_refl). reflexivity.
  - split.
    + rewrite collapse_none_cons. destruct (N.eqb c chr_newline) eqn:Hc.
      * destruct (IHsome []) as (m & Hm0 & Hm); [apply not_elem_of_nil|].
        exists [], (split chr_newline m). split; [|exact Hm].
        exact (eq_trans (f_equal (split chr_newline) Hm0) (split_cons_eq _ _)).
      * destruct IHnone as (first & rest & Hsplit & Hrest).
        exists (c :: first), rest. split; [|exact Hrest].
        rewrite split_cons_ne by exact Hc. rewrite Hsplit. reflexivity.
    + intros ws Hws. rewrite collapse_some_cons.
      destruct (N.eqb c chr_newline) eqn:Hc.
      * apply IHsome, not_elem_of_nil.
      * destruct (uc_space c) eqn:Hsp.
        -- apply IHsome, not_newline_snoc; assumption.
        -- destruct IHnone as (first & rest & Hsplit & Hrest).
           exists (ws ++ c :: collapse None s). split; [reflexivity|].
           replace (ws ++ c :: collapse None s) with ((ws ++ [c]) ++ collapse None s)
             by (rewrite <- app_assoc; reflexivity).
           rewrite (split_app_prefix chr_newline (ws ++ [c]) _ first rest
                      (not_newline_snoc ws c Hws Hc) Hsplit).
           destruct rest as [|y rest]; [reflexivity|].
           change (no_blank_before_last (((ws ++ [c]) ++ first) :: y :: rest))
             with (negb (blank_line ((ws ++ [c]) ++ first))
                   && no_blank_before_last (y :: rest)).
           rewrite Hrest, andb_true_r, !blank_line_app.
           change (blank_line [c]) with (uc_space c && true).
           rewrite Hsp, andb_false_l, andb_false_r. reflexivity.
Qed.

Lemma split_replace_em t :
  split chr_newline (replace chr_em_dash (lit "--") t)
  = replace chr_em_dash (lit "--") <$> split chr_newline t.
Proof.
  induction t as [|c t IH]; [reflexivity|].
  change (replace chr_em_dash (lit "--") (c :: t))
    with ((if N.eqb c chr_em_dash then lit "--" else [c])
          ++ replace chr_em_dash (lit "--") t).
  destruct (N.eqb c chr_newline) eqn:Hc.
  - apply N.eqb_eq in Hc. subst c. change (N.eqb chr_newline chr_em_dash) with false.
    cbv iota. simpl app. rewrite !split_cons_eq, IH. reflexivity.
  - pose proof (split_cons_ne chr_newline c t Hc) as Hsc.
    destruct (split chr_newline t) as [|h0 t0] eqn:Hs; [destruct (split_nonempty _ _ Hs)|].
    rewrite fmap_cons in IH.
    etrans; [|exact (f_equal (fmap (replace chr_em_dash (lit "--"))) (eq_sym Hsc))].
    apply split_app_prefix; [|exact IH].
    destruct (N.eqb c chr_em_dash).
    + intros Hin. repeat (apply elem_of_cons in Hin as [Hin|Hin]; [discriminate|]).
      inversion Hin.
    + intros Hin. apply list_elem_of_singleton in Hin. subst c.
      rewrite N.eqb_refl in Hc. discriminate.
Qed.

Lemma blank_line_replace l :
  uc_space chr_hyphen = false →
  blank_line l = false → blank_line (replace chr_em_dash (lit "--") l) = false.
Proof.
  intros Hh. induction l as [|c l IH]; [discriminate|].
  change (replace chr_em_dash (lit "--") (c :: l))
    with ((if N.eqb c chr_em_dash then lit "--" else [c])
          ++ replace chr_em_dash (lit "--") l).
  rewrite blank_line_app. simpl. intros Hb.
  destruct (N.eqb c chr_em_dash).
  - change (blank_line (lit "--")) with (uc_space chr_hyphen && (uc_space chr_hyphen && true)).
    rewrite Hh. reflexivity.
  - simpl. destruct (uc_space c); simpl in *; [apply IH, Hb|reflexivity].
Qed.

Lemma no_blank_replace ls :
  uc_space chr_hyphen = false →
  no_blank_before_last ls = true →
  no_blank_before_last (replace chr_em_dash (lit "--") <$> ls) = true.
Proof.
  intros Hh. induction ls as [|x [|y ls] IH]; [reflexivity..|].
  change (no_blank_before_last (x :: y :: ls))
    with (negb (blank_line x) && no_blank_before_last (y :: ls)).
  intros Hn. apply andb_true_iff in Hn as [Hx Hrest]. apply negb_true_iff in Hx.
  rewrite !fmap_cons.
  change (no_blank_before_last (?a :: ?b :: ?l))
    with (negb (blank_line a) && no_blank_before_last (b :: l)).
  rewrite (blank_line_replace x Hh Hx). simpl negb. rewrite andb_true_l.
  rewrite <- fmap_cons. apply IH, Hrest.
Qed.

(** X15: of the lines that [_parse_file_content] hands to [_breakup_block],
    none is blank (empty or white space only) except possibly the first and
    the last one: the blank lines between cues are gone. (The hyphen is
    taken not to be white space.) *)
Theorem normalized_lines_not_blank (file_content : str) :
  uc_space chr_hyphen = false →
  ∃ first rest,
    normalized_lines file_content = first :: rest ∧
    no_blank_before_last rest = true.
Proof.
  intros Hh. unfold normalized_lines, re_sub_blank_lines.
  destruct (collapse_lines file_content) as [(first & rest & Hsplit & Hrest) _].
  rewrite split_replace_em, Hsplit, fmap_cons.
  eexists _, _. split; [reflexivity|]. apply no_blank_replace; assumption.
Qed.

Lemma for_each_quiet raw idxs last_break w :
  (∀ i, i ∈ idxs → breakup_step raw last_break i w = (Ok last_break, w)) →
  for_each (breakup_step raw) idxs last_break w = (Ok last_break, w).
Proof.
  induction idxs as [|i idxs IH]; intros Hq; [reflexivity|].
  rewrite for_each_cons, (run_bind_ok _ _ _ last_break w) by (apply Hq; left).
  apply IH. intros j Hj. apply Hq. right. exact Hj.
Qed.

Lemma breakup_block_quiet raw w :
  (∀ i, (2 ≤ i)%nat → boundary raw i = false) → _breakup_block raw w = (Ok tt, w).
Proof.
  intros Hq. unfold _breakup_block. rewrite run_bind, for_each_quiet; [reflexivity|].
  intros i Hi. unfold range in Hi. apply list_elem_of_fmap in Hi as (k & -> & Hk).
  apply elem_of_seq in Hk. unfold len in Hk.
  replace (2 + Z.of_nat k) with (Z.of_nat (2 + k)) by lia.
  apply breakup_step_quiet; [lia|]. apply Hq. lia.
Qed.

Lemma boundary_arrow_free raw i : arrow_free raw = true → boundary raw i = false.
Proof.
  intros Hf. unfold boundary.
  destruct (raw !! i) as [line|] eqn:Hl; [|reflexivity].
  destruct (raw !! (i - 1)%nat); [|reflexivity].
  unfold arrow_free in Hf. rewrite forallb_forall in Hf.
  specialize (Hf line). rewrite negb_true_iff in Hf. rewrite Hf; [reflexivity|].
  apply list_elem_of_In. eapply list_elem_of_lookup_2, Hl.
Qed.

(** Construction when segmentation creates nothing. *)
Lemma init_without_blocks subtitle_file w0 file_content w1 :
  read_file subtitle_file (blank subtitle_file w0) = (Ok file_content, w1) →
  _parse_file_content file_content w1 = (Ok tt, w1) →
  __init__ subtitle_file w0
  = (Raise (SubtitleContentException subtitle_file),
     set_short_path subtitle_file (blank subtitle_file w0)).
Proof.
  intros Hread Hparse. pose proof (read_file_state _ _ _ _ Hread) as ->.
  rewrite init_run, Hread, Hparse, bool_run; [reflexivity|].
  apply blocks_fresh_ok, (blocks_fresh_blank subtitle_file w0).
Qed.

(** X16: when no line of the normalized text, from the third on, holds the
    arrow right after a numeric line (in particular when no line holds the
    arrow at all), segmentation creates no block object and [__init__]
    raises [SubtitleContentException] for the file. *)
Theorem no_boundary_no_document subtitle_file w0 file_content w1 :
  read_file subtitle_file (blank subtitle_file w0) = (Ok file_content, w1) →
  (∀ i, (2 ≤ i)%nat → boundary (normalized_lines file_content) i = false)
  ∨ arrow_free (normalized_lines file_content) = true →
  _parse_file_content file_content w1 = (Ok tt, w1) ∧
  __init__ subtitle_file w0
  = (Raise (SubtitleContentException subtitle_file),
     set_short_path subtitle_file (blank subtitle_file w0)).
Proof.
  intros Hread Hq.
  assert (Hparse : _parse_file_content file_content w1 = (Ok tt, w1)).
  { unfold _parse_file_content. fold (normalized_lines file_content).
    apply breakup_block_quiet. destruct Hq as [Hq|Hfree]; [exact Hq|].
    intros i _. apply boundary_arrow_free, Hfree. }
  split; [exact Hparse|].
  apply (init_without_blocks subtitle_file w0 file_content w1 Hread Hparse).
Qed.

(** X17: a file whose normalized lines are those of a single well-formed
    cue, with nothing after it but lines without arrow, cannot be built:
    its only cue is the last one, no block is created, and [__init__]
    raises [SubtitleContentException]. *)
Theorem single_cue_rejected subtitle_file w0 file_content w1 (c : Cue) (tail : list str) :
  uc_numeric chr_hyphen = false →
  read_file subtitle_file (blank subtitle_file w0) = (Ok file_content, w1) →
  normalized_lines file_content = cue_lines c ++ tail →
  wf_cue c = true → arrow_free tail = true →
  __init__ subtitle_file w0
  = (Raise (SubtitleContentException subtitle_file),
     set_short_path subtitle_file (blank subtitle_file w0)).
Proof.
  intros Hh Hread Hlines Hwf Htail.
  apply (init_without_blocks subtitle_file w0 file_content w1 Hread).
  unfold _parse_file_content. fold (normalized_lines file_content). rewrite Hlines.
  destruct (scan_cues [] [] c tail w1 [] Hh Hwf eq_refl Htail) as [lb Hscan];
    [constructor|].
  unfold _breakup_block. rewrite run_bind.
  change 2 with (Z.of_nat 2). unfold len. rewrite range_indices.
  replace (length (cue_lines c ++ tail) - 2)%nat with (length (text c ++ tail))
    by (unfold cue_lines; simpl; lia).
  change (for_each (breakup_step (cue_lines c ++ tail))
            (indices 2 (length (text c ++ tail))) 0 w1 = (Ok lb, w1)) in Hscan.
  rewrite Hscan. reflexivity.
Qed.

End Normalisation.

(** ** The further properties on the sample documents *)

Section MoreSamples.
#[local] Existing Instance sample_env.

Lemma long_world_reachable : @reachable sample_env sv_settings long_world.
Proof.
  apply (reachable_init (E := sample_env) (S := sv_settings) long_file boot).
  vm_compute. reflexivity.
Defined.

Lemma mark_blocks_for_deletion_only_scores_witness :
  let w' := snd (mark_blocks_for_deletion (E := sample_env) [2; -5] sample_world) in
  self w' = self sample_world ∧ trace w' = trace sample_world ∧
  (∀ l, is_Some (heap w' !! l) ↔ is_Some (heap sample_world !! l)) ∧
  ∀ l b b', heap sample_world !! l = Some b → heap w' !! l = Some b' →
    content b' = content b ∧ current_index b' = current_index b ∧
    other b' = other b ∧
    (regex_matches b' = regex_matches b ∨ regex_matches b' = 3).
Proof.
  apply (mark_blocks_for_deletion_only_scores (E := sample_env) [2; -5] sample_world
           (snd (mark_blocks_for_deletion [2; -5] sample_world))
           (fst (mark_blocks_for_deletion [2; -5] sample_world))).
  apply surjective_pairing.
Defined.

Lemma mark_blocks_for_deletion_positive_witness :
  ∃ w', mark_blocks_for_deletion (E := sample_env) [2; 99] sample_world = (Ok tt, w') ∧
        self w' = self sample_world ∧
        (∀ k l b, blocks (self sample_world) !! k = Some l →
                  heap sample_world !! l = Some b →
                  heap w' !! l = Some (marked [2; 99] k b)) ∧
        (∀ l, l ∉ blocks (self sample_world) → heap w' !! l = heap sample_world !! l).
Proof.
  apply (mark_blocks_for_deletion_positive (E := sample_env) (S := no_settings)
           [2; 99] sample_world sample_world_reachable).
  constructor; [lia|]. constructor; [lia|]. constructor.
Defined.

Lemma mark_blocks_for_deletion_nonpositive_witness :
  (1 - len (blocks (self sample_world)) ≤ 0 →
   ∃ l b, blocks (self sample_world)
            !! Z.to_nat (len (blocks (self sample_world)) + 0 - 1) = Some l ∧
          heap sample_world !! l = Some b ∧
          mark_blocks_for_deletion (E := sample_env) [0] sample_world
          = (Ok tt, with_heap (<[l := set_regex_matches 3 b]> (heap sample_world))
                      sample_world)) ∧
  (0 < 1 - len (blocks (self sample_world)) →
   mark_blocks_for_deletion (E := sample_env) [0] sample_world
   = (Raise IndexError, sample_world)).
Proof.
  apply (mark_blocks_for_deletion_nonpositive (E := sample_env) (S := no_settings)
           0 sample_world sample_world_reachable).
  lia.
Defined.

Lemma document_never_empty_witness :
  blocks (self sample_marked) ≠ [] ∧ NoDup (blocks (self sample_marked)) ∧
  (∀ l, l ∈ blocks (self sample_marked) →
        ∃ b, heap sample_marked !! l = Some b ∧ truthy (content b) = true) ∧
  __bool__ (E := sample_env) sample_marked = (Ok true, sample_marked) ∧
  ∃ n, __len__ (E := sample_env) sample_marked = (Ok n, sample_marked) ∧ 1 ≤ n.
Proof.
  apply (document_never_empty (E := sample_env) (S := no_settings)
           sample_marked sample_marked_reachable).
Defined.

Lemma calls_keep_document_witness :
  blocks (self sample_warned) = blocks (self sample_world) ∧
  file (self sample_warned) = file (self sample_world) ∧
  language (self sample_warned) = language (self sample_world) ∧
  short_path (self sample_warned) = short_path (self sample_world) ∧
  ∀ l b, heap sample_world !! l = Some b →
         ∃ b', heap sample_warned !! l = Some b' ∧ content b' = content b ∧
               other b' = other b.
Proof.
  apply (calls_keep_document (E := sample_env) (S := no_settings)
           (CallWarn 0%nat) sample_world sample_warned
           (fst (run_call (CallWarn 0%nat) sample_world)) sample_world_reachable).
  apply surjective_pairing.
Defined.

Lemma fresh_document_witness :
  ad_blocks (self sample_world) = ∅ ∧ warning_blocks (self sample_world) = ∅ ∧
  file (self sample_world) = sample_file ∧
  short_path (self sample_world)
  = default sample_file
      (relative_to sample_file (config_relative_base (Settings := no_settings))).
Proof.
  apply (fresh_document (E := sample_env) (S := no_settings) sample_file boot sample_world).
  vm_compute. reflexivity.
Defined.

Lemma ad_is_permanent_witness :
  ad_blocks (self sample_warned) ⊆ ad_blocks (self sample_confirmed) ∧
  (∀ b, b ∈ warning_blocks (self sample_warned) →
        b ∉ warning_blocks (self sample_confirmed) → CallAd 0%nat = CallAd b) ∧
  (∀ b, b ∉ warning_blocks (self sample_warned) →
        b ∈ warning_blocks (self sample_confirmed) →
        CallAd 0%nat = CallWarn b ∧ b ∉ ad_blocks (self sample_warned)).
Proof.
  apply (ad_is_permanent (E := sample_env)
           (CallAd 0%nat) sample_warned sample_confirmed
           (fst (run_call (CallAd 0%nat) sample_warned))).
  apply surjective_pairing.
Defined.

Lemma warn_ad_commute_witness :
  (run_call (E := sample_env) (CallWarn 0%nat);;
   run_call (E := sample_env) (CallAd 1%nat)) sample_world
  = (run_call (E := sample_env) (CallAd 1%nat);;
     run_call (E := sample_env) (CallWarn 0%nat)) sample_world.
Proof.
  apply (warn_ad_commute (E := sample_env)
           (CallWarn 0%nat) (CallAd 1%nat) sample_world); reflexivity.
Defined.

Lemma reindex_idempotent_witness :
  ∃ w1, reindex (E := sample_env) sample_world = (Ok tt, w1) ∧
        reindex (E := sample_env) w1 = (Ok tt, w1) ∧
        (reindex (E := sample_env);; reindex (E := sample_env)) sample_world
        = (Ok tt, w1).
Proof.
  apply (reindex_idempotent (E := sample_env) (S := no_settings)
           sample_world sample_world_reachable).
Defined.

Lemma to_content_rendering_witness :
  ∃ out, to_content (E := sample_env) sample_world = (Ok out, sample_world) ∧
         out ++ [chr_newline] = rendered sample_world.
Proof.
  apply (to_content_rendering (E := sample_env) (S := no_settings)
           sample_world sample_world_reachable).
Defined.

Lemma warning_indexes_after_reindex_witness :
  ∃ out w1,
    (reindex (E := sample_env);; get_warning_indexes (E := sample_env)) sample_marked
    = (Ok out, w1) ∧
    length out = size (warning_blocks (self sample_marked)) ∧
    ∀ s, s ∈ out ↔
         ∃ k l, blocks (self sample_marked) !! k = Some l ∧
                l ∈ warning_blocks (self sample_marked) ∧
                s = str_of_int (Z.of_nat k + 1).
Proof.
  apply (warning_indexes_after_reindex (E := sample_env) (S := no_settings)
           sample_marked sample_marked_reachable).
  intros l Hl.
  assert (Hw : warning_blocks (self sample_marked) = {[1%nat]})
    by (vm_compute; reflexivity).
  rewrite Hw in Hl. apply elem_of_singleton in Hl. subst l.
  apply (list_elem_of_lookup_2 _ 1%nat). reflexivity.
Defined.

Lemma determine_language_precedence_witness :
  (∀ d, config_default_language (Settings := no_settings) = Some d → truthy d = true →
     ∃ w', determine_language (E := sample_env) (S := no_settings) long_world
           = (Ok tt, w') ∧
           language (self w') = d ∧ trace w' = trace long_world) ∧
  (truthy_opt (config_default_language (Settings := no_settings)) = false →
   List.find is_language
     (suffix_token_spec <$> candidate_suffixes (file (self long_world))) = None →
   ∃ r w',
     determine_language (E := sample_env) (S := no_settings) long_world = (r, w') ∧
     (len (doc_content long_world) < 500 →
        r = Ok tt ∧ language (self w') = und ∧
        trace w' = trace (probed_world long_world)) ∧
     (500 ≤ len (doc_content long_world) →
        trace w' = trace (probed_world long_world)
                   ++ [EvDetectLangs (doc_content long_world)] ∧
        match detect_langs (doc_content long_world) with
        | Some (top :: _) =>
            r = Ok tt ∧
            language (self w') = if (0.9 <? prob top)%float then lang top else und
        | Some [] => r = Raise IndexError ∧ language (self w') = und
        | None => r = Raise LangDetectException ∧ language (self w') = und
        end)).
Proof.
  apply (determine_language_precedence (E := sample_env) (S := no_settings) long_world).
  apply (reachable_blocks_ok (E := sample_env) (S := sv_settings) long_world).
  apply long_world_reachable.
Defined.

Lemma init_exceptions_witness :
  init_exception short_file (SubtitleContentException short_file).
Proof.
  apply (init_exceptions (E := sample_env) (S := no_settings) short_file boot
           (snd (__init__ (E := sample_env) (S := no_settings) short_file boot))).
  vm_compute. reflexivity.
Defined.

Lemma normalized_lines_not_blank_witness :
  ∃ first rest,
    normalized_lines (E := sample_env) sample_text = first :: rest ∧
    no_blank_before_last (E := sample_env) rest = true.
Proof.
  apply (normalized_lines_not_blank (E := sample_env) sample_text). reflexivity.
Defined.

Lemma no_boundary_no_document_witness :
  _parse_file_content (E := sample_env) (lit "Hello world") (blank short_file boot)
  = (Ok tt, blank short_file boot) ∧
  __init__ (E := sample_env) (S := no_settings) short_file boot
  = (Raise (SubtitleContentException short_file),
     set_short_path (S := no_settings) short_file (blank short_file boot)).
Proof.
  apply (no_boundary_no_document (E := sample_env) (S := no_settings)
           short_file boot (lit "Hello world") (blank short_file boot)).
  - vm_compute. reflexivity.
  - right. vm_compute. reflexivity.
Defined.

Lemma single_cue_rejected_witness :
  __init__ (E := one_cue_env) (S := no_settings) short_file boot
  = (Raise (SubtitleContentException short_file),
     set_short_path (E := one_cue_env) (S := no_settings) short_file
       (blank (E := one_cue_env) short_file boot)).
Proof.
  apply (single_cue_rejected (E := one_cue_env) (S := no_settings)
           short_file boot one_cue_text (blank (E := one_cue_env) short_file boot)
           (sample_cue (lit "1") (lit "Hello world")) [[]]).
  - reflexivity.
  - vm_compute. reflexivity.
  - vm_compute. reflexivity.
  - reflexivity.
  - reflexivity.
Defined.

End MoreSamples.
